(** * ToC-EL: the automaton visualizer (visualizer.py)

    A shallow embedding of the two functions of [visualizer.py] that carry
    algorithmic content,

    - [visualize_dfa_path]: the simulation of a DFA on an input string, and
    - [calculate_epsilon_closures]: the table of λ-closures of an NFA,

    together with proofs of their properties.  Calls to the graph drawing
    library (Graphviz) only consume the values computed here and are left
    out. *)

From stdpp Require Import gmap strings list.

Open Scope string_scope.
Open Scope list_scope.
Open Scope nat_scope.

(** ** Data model

    An automaton is a Python dictionary with the keys ['states'],
    ['alphabet'], ['transitions'], ['start_state'] and ['accept_states'].
    States and symbols are strings.  The transition dictionary is keyed by
    pairs [(state, symbol)]; a DFA maps a key to one next state, an NFA to a
    list of next states. *)

Record automaton (T : Type) : Type := Automaton {
  states : list string;
  alphabet : list string;
  transitions : gmap (string * string) T;
  start_state : string;
  accept_states : list string
}.

Arguments Automaton {T} _ _ _ _ _.
Arguments states {T} _.
Arguments alphabet {T} _.
Arguments transitions {T} _.
Arguments start_state {T} _.
Arguments accept_states {T} _.

Abbreviation dfa := (automaton string).
Abbreviation nfa := (automaton (list string)).

(** The distinguished symbol of the empty string. *)
Definition epsilon : string := "λ".

(** ** The DFA path simulation *)

Section dfa_path.
Variable d : dfa.

(** The [for symbol in s] loop of [visualize_dfa_path], lines 62-68.  The
    Python string [s] is read one symbol at a time and is given here as the
    list of its symbols; the argument of the loop is the part of it still to
    be read.  The loop variables are [accepted], [current_state] and [path].
    A missing key makes [dict.get] return [None], and the loop is left by
    [break]. *)
Fixpoint path_loop (s : list string) (accepted : bool)
    (current_state : string) (path : list string)
    : bool * string * list string :=
  match s with
  | [] => (accepted, current_state, path)
  | symbol :: rest =>
      match transitions d !! (current_state, symbol) with
      | None => (false, current_state, path)
      | Some next_state => path_loop rest accepted next_state (path ++ [next_state])
      end
  end.

(** [visualize_dfa_path], lines 57-70 and 99; of the returned triple
    [(graph, accepted, path)] the drawing is omitted. *)
Definition visualize_dfa_path (s : list string) : bool * list string :=
  let '(accepted, current_state, path) :=
    path_loop s true (start_state d) [start_state d] in
  (accepted && bool_decide (current_state ∈ accept_states d), path).

(** *** Reference notions for the simulation *)

(** The extended transition function: the state reached from [q] by
    reading all of [s], if every symbol has a transition. *)
Fixpoint delta_star (q : string) (s : list string) : option string :=
  match s with
  | [] => Some q
  | a :: rest =>
      match transitions d !! (q, a) with
      | None => None
      | Some q' => delta_star q' rest
      end
  end.

(** The number of symbols of [s] read from [q] before the first missing
    transition. *)
Fixpoint consumed (q : string) (s : list string) : nat :=
  match s with
  | [] => 0
  | a :: rest =>
      match transitions d !! (q, a) with
      | None => 0
      | Some q' => S (consumed q' rest)
      end
  end.

(** The states entered from [q] while reading [s], up to the first missing
    transition. *)
Fixpoint visited_states (q : string) (s : list string) : list string :=
  match s with
  | [] => []
  | a :: rest =>
      match transitions d !! (q, a) with
      | None => []
      | Some q' => q' :: visited_states q' rest
      end
  end.

(** The state in which reading [s] from [q] stops. *)
Definition halt_state (q : string) (s : list string) : string :=
  default q (last (visited_states q s)).

End dfa_path.

(** ** The λ-closure table *)

(** The number of successors listed in a transition dictionary. *)
Definition weight (m : gmap (string * string) (list string)) : nat :=
  map_fold (λ _ next_states total, length next_states + total) 0 m.

Section closures.
Variable n : nfa.

(** [nfa['transitions'].get((current_state, 'λ'), [])], line 153. *)
Definition epsilon_moves (current_state : string) : list string :=
  default [] (transitions n !! (current_state, epsilon)).

(** The Python list [stack] is kept with its last element first:
    [stack.pop()] takes the head and [stack.append(x)] conses [x].  The
    loop of lines 153-154 appends the successors one after the other. *)
Definition push_all (stack : list string) (next_states : list string)
    : list string :=
  foldl (λ stack next_state, next_state :: stack) stack next_states.

(** The variables of the search for one [state]: the [stack], the set
    [visited] and the dictionary [epsilon_closures] under construction. *)
Record search : Type := Search {
  s_stack : list string;
  s_visited : gset string;
  s_epsilon_closures : gmap string (gset string)
}.

(** The body of the [while stack] loop, lines 148-154, run with
    [current_state] just popped and [rest] the stack that remains.  The key
    [state] of [epsilon_closures] was bound at line 144, so
    [epsilon_closures[state].add] updates that entry. *)
Definition search_body (state current_state : string) (rest : list string)
    (visited : gset string) (epsilon_closures : gmap string (gset string))
    : search :=
  if decide (current_state ∈ visited) then
    Search rest visited epsilon_closures
  else
    Search (push_all rest (epsilon_moves current_state))
           ({[current_state]} ∪ visited)
           (alter (λ closure, {[current_state]} ∪ closure) state
                  epsilon_closures).

(** The [while stack] loop, lines 147-154.  Each unit of [fuel] pays for
    one iteration; [None] means the fuel ran out before the stack was
    empty. *)
Fixpoint while_stack (fuel : nat) (state : string) (st : search)
    : option search :=
  match s_stack st with
  | [] => Some st
  | current_state :: rest =>
      match fuel with
      | 0 => None
      | S fuel' =>
          while_stack fuel' state
            (search_body state current_state rest
               (s_visited st) (s_epsilon_closures st))
      end
  end.

(** The [for state in nfa['states']] loop, lines 143-154. *)
Fixpoint for_states (fuel : nat) (sts : list string)
    (epsilon_closures : gmap string (gset string))
    : option (gmap string (gset string)) :=
  match sts with
  | [] => Some epsilon_closures
  | state :: rest =>
      match while_stack fuel state
              (Search [state] ∅ (<[state := ∅]> epsilon_closures)) with
      | None => None
      | Some st => for_states fuel rest (s_epsilon_closures st)
      end
  end.

(** [calculate_epsilon_closures], lines 140-156, with [fuel] iterations
    allowed to each search. *)
Definition calculate_epsilon_closures_fuel (fuel : nat)
    : option (gmap string (gset string)) :=
  for_states fuel (states n) ∅.

(** A number of iterations that every search stays within: one for the
    initial stack entry and one for each successor listed in the transition
    dictionary. *)
Definition search_bound : nat := S (weight (transitions n)).

(** [calculate_epsilon_closures], lines 140-156. *)
Definition calculate_epsilon_closures : option (gmap string (gset string)) :=
  calculate_epsilon_closures_fuel search_bound.

(** *** Reference notions for the closure *)

(** One λ-labelled transition from [q] to [q']. *)
Definition epsilon_step (q q' : string) : Prop :=
  ∃ next_states,
    transitions n !! (q, epsilon) = Some next_states ∧ q' ∈ next_states.

(** [q'] is reachable from [q] by zero or more λ-labelled transitions. *)
Definition epsilon_reachable (q q' : string) : Prop :=
  rtc epsilon_step q q'.

(** *** The measure and the invariant of a search *)

(** The λ-entries of the transition dictionary that leave a state not yet
    visited. *)
Definition pending (visited : gset string)
    : gmap (string * string) (list string) :=
  filter (λ entry, entry.1.2 = epsilon ∧ entry.1.1 ∉ visited) (transitions n).

(** An upper bound on the iterations a search still needs. *)
Definition search_measure (st : search) : nat :=
  length (s_stack st) + weight (pending (s_visited st)).

(** What holds of the search for [state], started with the table [table0],
    before and after each iteration. *)
Record search_inv (state : string) (table0 : gmap string (gset string))
    (st : search) : Prop := SearchInv {
  inv_table : s_epsilon_closures st = <[state := s_visited st]> table0;
  inv_visited : ∀ q, q ∈ s_visited st → epsilon_reachable state q;
  inv_stack : ∀ q, q ∈ s_stack st → epsilon_reachable state q;
  inv_start : state ∈ s_visited st ∨ state ∈ s_stack st;
  inv_closed : ∀ q q', q ∈ s_visited st → epsilon_step q q' →
               q' ∈ s_visited st ∨ q' ∈ s_stack st
}.

End closures.

(** The union of the table entries of the members of a set of states; a
    state without an entry contributes nothing. *)
Definition closure_of_set (table : gmap string (gset string))
    (X : gset string) : gset string :=
  ⋃ ((λ q, default ∅ (table !! q)) <$> elements X).

(** ** The closure table over a store of Python objects

    [calculate_epsilon_closures] receives a reference to the dictionary of
    the automaton, reads the lists and the dictionary it refers to, and
    builds its dictionary, sets and stack as new objects.  To speak about
    what the function writes, the objects are placed in a store and the
    function is written again as a computation on that store. *)

(** Dictionary keys are strings or pairs of strings; dictionary values are
    strings or references to objects. *)
Inductive key : Type :=
  | KStr (s : string)
  | KPair (a b : string).

Inductive value : Type :=
  | VStr (s : string)
  | VRef (l : nat).

#[global] Instance key_eq_dec : EqDecision key.
Proof. solve_decision. Defined.

#[global] Instance key_countable : Countable key.
Proof.
  refine (inj_countable'
            (λ k, match k with KStr s => inl s | KPair a b => inr (a, b) end)
            (λ x, match x with inl s => KStr s | inr (a, b) => KPair a b end)
            _).
  by intros [].
Defined.

(** The objects the automaton dictionary is documented to hold, and those
    the function builds: lists of strings, sets of strings and
    dictionaries. *)
Inductive object : Type :=
  | OList (items : list string)
  | OSet (members : gset string)
  | ODict (entries : gmap key value).

Abbreviation store := (gmap nat object).

(** A run ends with a value, with a Python exception, or with the fuel of a
    loop used up. *)
Inductive outcome (A : Type) : Type :=
  | Ok (a : A)
  | Exception
  | OutOfFuel.

Arguments Ok {A} _.
Arguments Exception {A}.
Arguments OutOfFuel {A}.

Definition run (A : Type) : Type := store → outcome A * store.

#[global] Instance run_ret : MRet run := λ A a h, (Ok a, h).

#[global] Instance run_bind : MBind run := λ A B f m h,
  match m h with
  | (Ok a, h') => f a h'
  | (Exception, h') => (Exception, h')
  | (OutOfFuel, h') => (OutOfFuel, h')
  end.

Definition raise {A : Type} : run A := λ h, (Exception, h).

Definition out_of_fuel {A : Type} : run A := λ h, (OutOfFuel, h).

(** *** Operations on objects *)

(** A display ([{}], [set()], [[state]], [[]]) builds a new object. *)
Definition new (o : object) : run nat := λ h,
  let l := fresh (dom h) in (Ok l, <[l := o]> h).

(** A value used where an object is needed.  The automaton dictionary is
    documented to hold lists and a dictionary under the keys the function
    reads; a string found there is reported as an exception. *)
Definition as_ref (v : value) : run nat :=
  match v with
  | VRef l => mret l
  | VStr _ => raise
  end.

(** [d[k]]: [KeyError] on a missing key. *)
Definition dict_getitem (d : nat) (k : key) : run value := λ h,
  match h !! d with
  | Some (ODict entries) =>
      match entries !! k with
      | Some v => (Ok v, h)
      | None => (Exception, h)
      end
  | _ => (Exception, h)
  end.

(** [d.get(k, default)]. *)
Definition dict_get (d : nat) (k : key) (default : value) : run value := λ h,
  match h !! d with
  | Some (ODict entries) =>
      match entries !! k with
      | Some v => (Ok v, h)
      | None => (Ok default, h)
      end
  | _ => (Exception, h)
  end.

(** [d[k] = v]. *)
Definition dict_setitem (d : nat) (k : key) (v : value) : run unit := λ h,
  match h !! d with
  | Some (ODict entries) => (Ok (), <[d := ODict (<[k := v]> entries)]> h)
  | _ => (Exception, h)
  end.

(** [x in s] and [s.add(x)] on a set. *)
Definition set_contains (s : nat) (x : string) : run bool := λ h,
  match h !! s with
  | Some (OSet members) => (Ok (bool_decide (x ∈ members)), h)
  | _ => (Exception, h)
  end.

Definition set_add (s : nat) (x : string) : run unit := λ h,
  match h !! s with
  | Some (OSet members) => (Ok (), <[s := OSet ({[x]} ∪ members)]> h)
  | _ => (Exception, h)
  end.

(** The truth value of a list, [l.pop()] and [l.append(x)]. *)
Definition list_nonempty (l : nat) : run bool := λ h,
  match h !! l with
  | Some (OList items) => (Ok (bool_decide (items ≠ [])), h)
  | _ => (Exception, h)
  end.

Definition list_pop (l : nat) : run string := λ h,
  match h !! l with
  | Some (OList items) =>
      match last items with
      | Some x => (Ok x, <[l := OList (removelast items)]> h)
      | None => (Exception, h)
      end
  | _ => (Exception, h)
  end.

Definition list_append (l : nat) (x : string) : run unit := λ h,
  match h !! l with
  | Some (OList items) => (Ok (), <[l := OList (items ++ [x])]> h)
  | _ => (Exception, h)
  end.

(** The step of a list iterator standing at index [i]. *)
Definition list_next (l : nat) (i : nat) : run (option string) := λ h,
  match h !! l with
  | Some (OList items) => (Ok (items !! i), h)
  | _ => (Exception, h)
  end.

(** *** Loops *)

(** [for x in l: body], the iterator standing at index [i]. *)
Fixpoint for_loop (fuel : nat) (l : nat) (body : string → run unit) (i : nat)
    : run unit :=
  match fuel with
  | 0 => out_of_fuel
  | S fuel' =>
      x ← list_next l i;
      match x with
      | None => mret ()
      | Some x => body x ;; for_loop fuel' l body (S i)
      end
  end.

(** [while cond: body]. *)
Fixpoint while_loop (fuel : nat) (cond : run bool) (body : run unit)
    : run unit :=
  continue ← cond;
  if continue : bool then
    match fuel with
    | 0 => out_of_fuel
    | S fuel' => body ;; while_loop fuel' cond body
    end
  else mret ().

(** *** The function *)

(** The body of the [while stack] loop, lines 148-154. *)
Definition search_body_store (fuel : nat)
    (nfa epsilon_closures : nat) (state : string) (visited stack : nat)
    : run unit :=
  current_state ← list_pop stack;
  seen ← set_contains visited current_state;
  if seen : bool then mret ()
  else
    set_add visited current_state ;;
    closure ← dict_getitem epsilon_closures (KStr state) ≫= as_ref;
    set_add closure current_state ;;
    transitions ← dict_getitem nfa (KStr "transitions") ≫= as_ref;
    empty ← new (OList []);
    next_states ← dict_get transitions (KPair current_state epsilon) (VRef empty)
                  ≫= as_ref;
    for_loop fuel next_states (λ next_state, list_append stack next_state) 0.

(** The body of the [for state in nfa['states']] loop, lines 144-154. *)
Definition search_store (fuel : nat) (nfa epsilon_closures : nat)
    (state : string) : run unit :=
  closure ← new (OSet ∅);
  dict_setitem epsilon_closures (KStr state) (VRef closure) ;;
  visited ← new (OSet ∅);
  stack ← new (OList [state]);
  while_loop fuel (list_nonempty stack)
    (search_body_store fuel nfa epsilon_closures state visited stack).

(** [calculate_epsilon_closures], lines 140-156, called with a reference to
    the automaton dictionary; it returns a reference to the table. *)
Definition calculate_epsilon_closures_store (fuel : nat) (nfa : nat)
    : run nat :=
  epsilon_closures ← new (ODict ∅);
  states ← dict_getitem nfa (KStr "states") ≫= as_ref;
  for_loop fuel states (search_store fuel nfa epsilon_closures) 0 ;;
  mret epsilon_closures.

(** *** Automata and tables in a store *)

(** The object at [nfa] in the store [h] is the dictionary of the automaton
    [n]: its five keys hold the fields of [n]. *)
Inductive represents (h : store) (nfa : nat) (n : automaton (list string))
    : Prop :=
  | Represents (entries table : gmap key value)
      (l_states l_alphabet l_transitions l_accept : nat)
      (rep_nfa : h !! nfa = Some (ODict entries))
      (rep_states_key : entries !! KStr "states" = Some (VRef l_states))
      (rep_states_list : h !! l_states = Some (OList (states n)))
      (rep_alphabet_key : entries !! KStr "alphabet" = Some (VRef l_alphabet))
      (rep_alphabet_list : h !! l_alphabet = Some (OList (alphabet n)))
      (rep_start_key :
         entries !! KStr "start_state" = Some (VStr (start_state n)))
      (rep_accept_key :
         entries !! KStr "accept_states" = Some (VRef l_accept))
      (rep_accept_list : h !! l_accept = Some (OList (accept_states n)))
      (rep_transitions_key :
         entries !! KStr "transitions" = Some (VRef l_transitions))
      (rep_transitions_dict : h !! l_transitions = Some (ODict table))
      (rep_transitions_entries : ∀ q a,
         match transitions n !! (q, a) with
         | Some next_states =>
             ∃ l, table !! KPair q a = Some (VRef l)
                  ∧ h !! l = Some (OList next_states)
         | None => table !! KPair q a = None
         end).

(** The dictionary [entries] in the store [h] is the closure table
    [table]: its keys are the states that have an entry in [table], and each
    holds a set object with the members of that entry. *)
Definition table_entries (h : store) (entries : gmap key value)
    (table : gmap string (gset string)) : Prop :=
  (∀ a b, entries !! KPair a b = None)
  ∧ ∀ s, match table !! s with
         | Some X => ∃ l, entries !! KStr s = Some (VRef l)
                          ∧ h !! l = Some (OSet X)
         | None => entries !! KStr s = None
         end.

Definition table_at (h : store) (r : nat)
    (table : gmap string (gset string)) : Prop :=
  ∃ entries, h !! r = Some (ODict entries) ∧ table_entries h entries table.

(** A store for an arbitrary automaton: the dictionary of the automaton at
    location 0, its lists and its transition dictionary at locations 1 to 4,
    and the list of successors of each key of the transition dictionary at a
    location of its own from 5 on. *)
Definition successors_at (k : string * string) : nat := 5 + encode_nat k.

Definition pair_key (k : string * string) : key := KPair k.1 k.2.

Definition store_of (n : automaton (list string)) : store :=
  <[0 := ODict (list_to_map
                  [(KStr "states", VRef 1); (KStr "alphabet", VRef 2);
                   (KStr "transitions", VRef 3);
                   (KStr "start_state", VStr (start_state n));
                   (KStr "accept_states", VRef 4)])]>
  (<[1 := OList (states n)]>
  (<[2 := OList (alphabet n)]>
  (<[3 := ODict (kmap pair_key
                   (map_imap (λ k _, Some (VRef (successors_at k)))
                             (transitions n)))]>
  (<[4 := OList (accept_states n)]>
  (kmap successors_at (OList <$> transitions n)))))).

(** *** The search in the store and the search of the model

    [search_rel h1 state closure visited stack h st]: in the store [h] the
    list at [stack] holds the stack of [st] (last element first in [st]), the
    set at [visited] holds its visited states and the set at [closure] the
    entry of [state] in its table; every other object of the store [h1], the
    store in which the search started, is as it was. *)
Definition search_rel (h1 : store) (state : string) (closure visited stack : nat)
    (h : store) (st : search) : Prop :=
  h !! stack = Some (OList (reverse (s_stack st)))
  ∧ h !! visited = Some (OSet (s_visited st))
  ∧ (∃ C, s_epsilon_closures st !! state = Some C
          ∧ h !! closure = Some (OSet C))
  ∧ (∀ l, is_Some (h1 !! l) → l ≠ closure → l ≠ visited → l ≠ stack →
          h !! l = h1 !! l).

(** [table_inv h0 epsilon_closures h table]: the store [h] extends the
    store [h0] of the call, and the dictionary at [epsilon_closures], an
    object that [h0] does not have, is the table [table]. *)
Definition table_inv (h0 : store) (epsilon_closures : nat) (h : store)
    (table : gmap string (gset string)) : Prop :=
  h0 ⊆ h ∧ h0 !! epsilon_closures = None ∧ table_at h epsilon_closures table.

(** *** What a computation may write

    [keeps h0 table h]: the store [h] has every object of the store [h0]
    unchanged, and if [table] is a dictionary in [h], the objects it refers to
    are not objects of [h0]. *)
Definition keeps (h0 : store) (table : nat) (h : store) : Prop :=
  h0 ⊆ h
  ∧ ∀ entries k l,
      h !! table = Some (ODict entries) → entries !! k = Some (VRef l) →
      h0 !! l = None.

(** [maintains I m Q]: run in a store that satisfies [I], the computation
    [m] ends, however it ends, in a store that satisfies [I], and a value it
    returns satisfies [Q]. *)
Definition maintains {A : Type} (I : store → Prop) (m : run A) (Q : A → Prop)
    : Prop :=
  ∀ h, I h → I (m h).2 ∧ ∀ a, (m h).1 = Ok a → Q a.

(** Fuel that suffices for every loop of the function. *)
Definition store_bound (n : automaton (list string)) : nat :=
  search_bound n + length (states n).

(** ** The drawings

    The four [visualize_] functions build a [gv.Digraph] by calls of its
    methods [node] and [edge].  A drawing is given here as the list of these
    calls, in the order in which they are made; a call carries its
    positional arguments and its keyword arguments, the latter in the order
    in which they are written.

    The loops over [transitions.items()] run through the dictionary in its
    own order, which a [gmap] does not record; [map_to_list] yields the same
    items in some order. *)
Inductive call : Type :=
  | Node (name : string) (attrs : list (string * string))
  | Edge (tail head : string) (attrs : list (string * string)).

#[global] Instance call_eq_dec : EqDecision call.
Proof. solve_decision. Defined.

(** [label = f"{symbol}" if symbol != 'λ' else 'ε'], lines 30, 95, 128 and
    187. *)
Definition edge_label (symbol : string) : string :=
  if decide (symbol ≠ epsilon) then symbol else "ε".

(** [shape = 'doublecircle' if state in accept_states else 'circle'], lines
    24, 85, 122 and 181. *)
Definition state_shape (accept_states : list string) (state : string)
    : string :=
  if decide (state ∈ accept_states) then "doublecircle" else "circle".

(** The call that highlights the start state, lines 34-35, 80-81, 134-135
    and 193-194. *)
Definition start_node (start_state : string) : call :=
  Node start_state
    [("shape", "circle"); ("style", "filled"); ("fillcolor", "lightblue")].

(** [visualize_dfa], lines 20-37. *)
Definition visualize_dfa (d : automaton string) : list call :=
  ((λ state, Node state [("shape", state_shape (accept_states d) state)])
     <$> states d)
  ++ ((λ '((state, symbol), next_state),
         Edge state next_state [("label", edge_label symbol)])
        <$> map_to_list (transitions d))
  ++ [start_node (start_state d)].

(** The drawing that [visualize_dfa_path] returns, lines 71-97.  The label
    of the node ['s'] is the input string, the concatenation of its symbols;
    [path] is never empty, so [path[-1]] is its last state. *)
Definition visualize_dfa_path_graph (d : automaton string) (s : list string)
    : list call :=
  let '(accepted, path) := visualize_dfa_path d s in
  let accepted_color := if accepted : bool then "green" else "red" in
  [Node "s" [("label", String.concat "" s); ("shape", "none");
             ("fontsize", "20"); ("fontweight", "bold")]]
  ++ [start_node (start_state d)]
  ++ ((λ state,
         let shape := state_shape (accept_states d) state in
         if decide (Some state = last path) then
           Node state [("shape", shape); ("style", "filled");
                       ("fillcolor", accepted_color)]
         else Node state [("shape", shape)])
        <$> states d)
  ++ ((λ '((state, symbol), next_state),
         Edge state next_state
           [("label", edge_label symbol);
            ("color", if decide ((state, symbol) ∈ zip path s)
                      then accepted_color else "black")])
        <$> map_to_list (transitions d)).

(** [visualize_nfa], lines 118-137. *)
Definition visualize_nfa (n : automaton (list string)) : list call :=
  ((λ state, Node state [("shape", state_shape (accept_states n) state)])
     <$> states n)
  ++ mjoin ((λ '((state, symbol), next_states),
               (λ next_state,
                  Edge state next_state [("label", edge_label symbol)])
                 <$> next_states)
              <$> map_to_list (transitions n))
  ++ [start_node (start_state n)].

(** [visualize_e_nfa], lines 177-196. *)
Definition visualize_e_nfa (n : automaton (list string)) : list call :=
  ((λ state, Node state [("shape", state_shape (accept_states n) state)])
     <$> states n)
  ++ mjoin ((λ '((state, symbol), next_states),
               (λ next_state,
                  Edge state next_state [("label", edge_label symbol)])
                 <$> next_states)
              <$> map_to_list (transitions n))
  ++ [start_node (start_state n)].

(** ** The driver's use of the closure table

    [e_nfa['epsilon_closures'] = calculate_epsilon_closures(e_nfa)], line
    253, on the store. *)
Definition attach_epsilon_closures (fuel : nat) (nfa : nat) : run unit :=
  epsilon_closures ← calculate_epsilon_closures_store fuel nfa;
  dict_setitem nfa (KStr "epsilon_closures") (VRef epsilon_closures).

(** ** Reference notions for the added properties *)

(** The DFA [d] started in the state [q]. *)
Definition with_start (d : automaton string) (q : string) : automaton string :=
  Automaton (states d) (alphabet d) (transitions d) q (accept_states d).

(** The transition from [q] on [a] to [q'] is taken at some step of the run
    recorded in [path]. *)
Definition taken (path s : list string) (q a q' : string) : Prop :=
  ∃ i, path !! i = Some q ∧ s !! i = Some a ∧ path !! (i + 1) = Some q'.

(** ** The automata of the demonstration driver, lines 201-250 *)

Definition demo_dfa : dfa :=
  Automaton ["q0"; "q1"; "q2"] ["0"; "1"]
    (list_to_map
       [(("q0", "0"), "q0"); (("q0", "1"), "q1");
        (("q1", "0"), "q2"); (("q1", "1"), "q0");
        (("q2", "0"), "q1"); (("q2", "1"), "q2")])
    "q0" ["q2"].

(** A DFA whose table is partial: no transition leaves [q1]. *)
Definition partial_dfa : dfa :=
  Automaton ["q0"; "q1"] ["a"; "b"]
    (list_to_map [(("q0", "a"), "q1"); (("q0", "b"), "q0")])
    "q0" ["q1"].

(** An NFA whose λ-transitions form a cycle through its three states. *)
Definition cyclic_nfa : nfa :=
  Automaton ["p0"; "p1"; "p2"] ["a"]
    (list_to_map
       [(("p0", "λ"), ["p1"]);
        (("p1", "λ"), ["p2"; "p1"]);
        (("p2", "λ"), ["p0"]);
        (("p2", "a"), ["p2"])])
    "p0" ["p2"].

Definition demo_e_nfa : nfa :=
  Automaton ["q0"; "q1"; "q2"; "q3"] ["a"; "b"]
    (list_to_map
       [(("q0", "λ"), ["q1"; "q3"]);
        (("q1", "a"), ["q2"]);
        (("q2", "b"), ["q0"]);
        (("q3", "b"), ["q2"])])
    "q0" ["q2"].

(** The automaton [demo_e_nfa] written differently: the states in another
    order and one of them twice, the λ-successors of q0 in another order and
    one of them twice, an empty list of λ-successors for q1, and other
    transitions, alphabet, start state and accepting states. *)
Definition demo_e_nfa_variant : nfa :=
  Automaton ["q3"; "q0"; "q2"; "q1"; "q0"] ["x"]
    (list_to_map
       [(("q0", "λ"), ["q3"; "q1"; "q3"]);
        (("q1", "λ"), []);
        (("q3", "x"), ["q0"])])
    "q3" [].

(** A store that holds the automaton [demo_e_nfa] at location 0.  The
    transitions on [a] from [q1] and on [b] from [q3] share one list. *)
Definition demo_store : store :=
  list_to_map
    [(0, ODict (list_to_map
                  [(KStr "states", VRef 1); (KStr "alphabet", VRef 2);
                   (KStr "transitions", VRef 3);
                   (KStr "start_state", VStr "q0");
                   (KStr "accept_states", VRef 4)]));
     (1, OList ["q0"; "q1"; "q2"; "q3"]);
     (2, OList ["a"; "b"]);
     (3, ODict (list_to_map
                  [(KPair "q0" "λ", VRef 5); (KPair "q1" "a", VRef 6);
                   (KPair "q2" "b", VRef 7); (KPair "q3" "b", VRef 6)]));
     (4, OList ["q2"]);
     (5, OList ["q1"; "q3"]);
     (6, OList ["q2"]);
     (7, OList ["q0"])].

(** * Properties *)

Section dfa_path_facts.
Variable d : dfa.

Local Abbreviation path_loop := (path_loop d).
Local Abbreviation delta_star := (delta_star d).
Local Abbreviation consumed := (consumed d).
Local Abbreviation visited_states := (visited_states d).
Local Abbreviation halt_state := (halt_state d).

(** *** The loop, characterised *)

Lemma halt_state_nil q : halt_state q [] = q.
Proof. done. Qed.

Lemma halt_state_step q a s q' :
  transitions d !! (q, a) = Some q' →
  halt_state q (a :: s) = halt_state q' s.
Proof.
  intros Hq. unfold halt_state. cbn [visited_states]. rewrite Hq.
  rewrite last_cons. by destruct (last (visited_states q' s)).
Qed.

Lemma halt_state_stuck q a s :
  transitions d !! (q, a) = None → halt_state q (a :: s) = q.
Proof.
  intros Hq. unfold halt_state. cbn [visited_states]. by rewrite Hq.
Qed.

Lemma path_loop_spec s accepted q path :
  path_loop s accepted q path =
    (accepted && bool_decide (consumed q s = length s),
     halt_state q s,
     path ++ visited_states q s).
Proof.
  revert accepted q path.
  induction s as [|a s IH]; intros accepted q path.
  - cbn [path_loop consumed visited_states length].
    rewrite bool_decide_eq_true_2 by done.
    by rewrite andb_true_r, app_nil_r, halt_state_nil.
  - cbn [path_loop consumed visited_states length].
    destruct (transitions d !! (q, a)) as [q'|] eqn:Hq.
    + rewrite IH, <- app_assoc, (halt_state_step _ _ _ _ Hq).
      cbn [app]. do 2 f_equal. f_equal.
      apply bool_decide_ext; lia.
    + rewrite (halt_state_stuck _ _ _ Hq), bool_decide_eq_false_2 by done.
      by rewrite andb_false_r, app_nil_r.
Qed.

Lemma length_visited_states q s :
  length (visited_states q s) = consumed q s.
Proof.
  revert q; induction s as [|a s IH]; intros q; simpl; [done|].
  destruct (transitions d !! (q, a)); simpl; [by rewrite IH | done].
Qed.

Lemma consumed_le q s : consumed q s ≤ length s.
Proof.
  revert q; induction s as [|a s IH]; intros q; simpl; [done|].
  destruct (transitions d !! (q, a)); simpl; [specialize (IH s0) |]; lia.
Qed.

Lemma consumed_full q s :
  consumed q s = length s ↔ is_Some (delta_star q s).
Proof.
  revert q; induction s as [|a s IH]; intros q; simpl.
  - split; eauto.
  - destruct (transitions d !! (q, a)) as [q'|].
    + rewrite <- IH. lia.
    + split; [done | intros [? ?]; done].
Qed.

Lemma delta_star_halt_state q s q' :
  delta_star q s = Some q' → halt_state q s = q'.
Proof.
  revert q; induction s as [|a s IH]; intros q; cbn [delta_star].
  - rewrite halt_state_nil. congruence.
  - destruct (transitions d !! (q, a)) as [q1|] eqn:Hq; [|done].
    rewrite (halt_state_step _ _ _ _ Hq). apply IH.
Qed.

End dfa_path_facts.

(** *** The result of [visualize_dfa_path], in closed form *)

Lemma visualize_dfa_path_unfold (d : dfa) (s : list string) :
  visualize_dfa_path d s =
    (bool_decide (consumed d (start_state d) s = length s)
       && bool_decide (halt_state d (start_state d) s ∈ accept_states d),
     start_state d :: visited_states d (start_state d) s).
Proof.
  unfold visualize_dfa_path. by rewrite path_loop_spec.
Qed.

Lemma delta_star_take_consumed (d : dfa) (q : string) (s : list string) :
  is_Some (delta_star d q (take (consumed d q s) s)).
Proof.
  revert q; induction s as [|a s IH]; intros q; cbn [consumed].
  - by eexists.
  - destruct (transitions d !! (q, a)) as [q'|] eqn:Hq.
    + cbn [take delta_star]. rewrite Hq. apply IH.
    + by eexists.
Qed.

Lemma delta_star_take_S_consumed (d : dfa) (q : string) (s : list string) :
  consumed d q s < length s →
  delta_star d q (take (S (consumed d q s)) s) = None.
Proof.
  revert q; induction s as [|a s IH]; intros q; cbn [consumed length].
  - lia.
  - destruct (transitions d !! (q, a)) as [q'|] eqn:Hq.
    + intros Hlt. cbn [take delta_star]. rewrite Hq. apply IH. lia.
    + intros _. cbn [take delta_star]. by rewrite Hq.
Qed.

(** Reading stops at index [i] when the prefix before it leads to a state
    without a transition on the symbol at [i]. *)
Lemma stuck_at (d : dfa) (s : list string) (i : nat) (q0 q a : string) :
  delta_star d q0 (take i s) = Some q →
  s !! i = Some a →
  transitions d !! (q, a) = None →
  consumed d q0 s = i
  ∧ visited_states d q0 s = visited_states d q0 (take i s)
  ∧ halt_state d q0 s = q.
Proof.
  revert i q0; induction s as [|b s IH]; intros i q0 Hpre Hi Hno.
  - done.
  - destruct i as [|i].
    + cbn in Hpre, Hi. simplify_eq.
      rewrite (halt_state_stuck _ _ _ _ Hno).
      cbn [consumed visited_states take]. by rewrite Hno.
    + cbn [take delta_star] in Hpre. cbn in Hi.
      destruct (transitions d !! (q0, b)) as [q1|] eqn:Hq; [|done].
      destruct (IH i q1 Hpre Hi Hno) as (Hc & Hv & Hh).
      rewrite (halt_state_step _ _ _ _ _ Hq).
      cbn [consumed visited_states take]. rewrite Hq.
      by rewrite Hc, Hv.
Qed.

(** Every state entered was entered along a transition of the table. *)
Lemma visited_states_run (d : dfa) (q0 : string) (s : list string) (i : nat) :
  i < length (visited_states d q0 s) →
  ∃ q a q',
    (q0 :: visited_states d q0 s) !! i = Some q
    ∧ s !! i = Some a
    ∧ visited_states d q0 s !! i = Some q'
    ∧ transitions d !! (q, a) = Some q'.
Proof.
  revert q0 i; induction s as [|b s IH]; intros q0 i; cbn [visited_states].
  - cbn. lia.
  - destruct (transitions d !! (q0, b)) as [q1|] eqn:Hq; [|cbn; lia].
    destruct i as [|i]; cbn [length].
    + intros _. by exists q0, b, q1.
    + intros Hi. destruct (IH q1 i) as (q & a & q' & ? & ? & ? & ?); [lia|].
      by exists q, a, q'.
Qed.

(** *** Claims about the path simulation *)

(** C1.  [visualize_dfa_path] answers [accepted = True] exactly when every
    symbol of the string has been consumed and the state reached after the
    whole string, which is then the last state of the path, is an accepting
    state.  An accepting state met on the way does not make the string
    accepted: on the demonstration DFA the string 100 passes through the
    accepting state q2 and is rejected. *)
Theorem accepted_iff_consumed_and_final_accepting :
  (∀ (d : dfa) (s : list string),
     ((visualize_dfa_path d s).1 = true ↔
      ∃ q, delta_star d (start_state d) s = Some q ∧ q ∈ accept_states d)
     ∧ (∀ q, delta_star d (start_state d) s = Some q →
             last (visualize_dfa_path d s).2 = Some q))
  ∧ (∃ (d : dfa) (s : list string) (i : nat) (q : string),
       i + 1 < length (visualize_dfa_path d s).2
       ∧ (visualize_dfa_path d s).2 !! i = Some q
       ∧ q ∈ accept_states d
       ∧ (visualize_dfa_path d s).1 = false).
Proof.
  split.
  - intros d s. rewrite visualize_dfa_path_unfold. cbn [fst snd].
    rewrite andb_true_iff, !bool_decide_eq_true, consumed_full.
    assert (Hlast : last (start_state d :: visited_states d (start_state d) s)
                    = Some (halt_state d (start_state d) s)).
    { unfold halt_state. rewrite last_cons.
      by destruct (last (visited_states d (start_state d) s)). }
    rewrite Hlast. split; [split|].
    + intros [[q Hq] Hacc]. exists q.
      by rewrite (delta_star_halt_state _ _ _ _ Hq) in *.
    + intros (q & Hq & Hacc).
      rewrite (delta_star_halt_state _ _ _ _ Hq). eauto.
    + intros q Hq. by rewrite (delta_star_halt_state _ _ _ _ Hq).
  - exists demo_dfa, ["1"; "0"; "0"], 2, "q2".
    vm_compute. repeat split; try lia. apply list_elem_of_here.
Qed.

(** C2.  When the symbol at index [i] has no transition from the state [q]
    reached by the symbols before it, the simulation halts there: the path is
    the path of the prefix of length [i], it has [i + 1] states and ends in
    [q], and the string is rejected, whether or not [q] is accepting. *)
Theorem missing_transition_halts (d : dfa) (s : list string) (i : nat)
    (q a : string) :
  delta_star d (start_state d) (take i s) = Some q →
  s !! i = Some a →
  transitions d !! (q, a) = None →
  (visualize_dfa_path d s).2 = (visualize_dfa_path d (take i s)).2
  ∧ length (visualize_dfa_path d s).2 = i + 1
  ∧ last (visualize_dfa_path d s).2 = Some q
  ∧ (visualize_dfa_path d s).1 = false.
Proof.
  intros Hpre Hi Hno.
  destruct (stuck_at d s i _ q a Hpre Hi Hno) as (Hc & Hv & Hh).
  pose proof (lookup_lt_Some _ _ _ Hi) as Hlt.
  rewrite !visualize_dfa_path_unfold. cbn [fst snd].
  split; [|split; [|split]].
  - by rewrite Hv.
  - cbn [length]. rewrite length_visited_states. lia.
  - rewrite last_cons. fold (halt_state d (start_state d) s) in Hh.
    unfold halt_state in Hh.
    destruct (last (visited_states d (start_state d) s)); by simplify_eq/=.
  - rewrite bool_decide_eq_false_2; [done | lia].
Qed.

Lemma missing_transition_halts_witness :
  delta_star partial_dfa (start_state partial_dfa) (take 2 ["b"; "a"; "b"; "a"])
    = Some "q1"
  ∧ ["b"; "a"; "b"; "a"] !! 2 = Some "b"
  ∧ transitions partial_dfa !! ("q1", "b") = None
  ∧ "q1" ∈ accept_states partial_dfa
  ∧ (visualize_dfa_path partial_dfa ["b"; "a"; "b"; "a"]).2 = ["q0"; "q0"; "q1"]
  ∧ (visualize_dfa_path partial_dfa ["b"; "a"; "b"; "a"]).1 = false.
Proof.
  do 3 (split; [reflexivity|]).
  split; [apply list_elem_of_here|].
  destruct (missing_transition_halts partial_dfa ["b"; "a"; "b"; "a"] 2 "q1" "b"
              eq_refl eq_refl eq_refl) as (Hp & _ & _ & Hacc).
  split; [rewrite Hp; reflexivity | exact Hacc].
Defined.

(** C3.  The path has one state more than the number of symbols consumed.
    That number is the length of the longest prefix of the string that the
    DFA can read; it is at most the length of the string, and equal to it
    exactly when the whole string can be read. *)
Theorem path_length_consumed (d : dfa) (s : list string) :
  let k := consumed d (start_state d) s in
  length (visualize_dfa_path d s).2 = 1 + k
  ∧ is_Some (delta_star d (start_state d) (take k s))
  ∧ (k < length s → delta_star d (start_state d) (take (S k) s) = None)
  ∧ k ≤ length s
  ∧ (k = length s ↔ is_Some (delta_star d (start_state d) s)).
Proof.
  intros k. subst k. rewrite visualize_dfa_path_unfold. cbn [snd length].
  rewrite length_visited_states.
  split; [done|].
  split; [apply delta_star_take_consumed|].
  split; [apply delta_star_take_S_consumed|].
  split; [apply consumed_le | apply consumed_full].
Qed.

(** C4, as stated: the path has [len(string) + 1] states for every DFA and
    string.  It fails on a string that meets a missing transition. *)
Lemma path_length_full_counterexample :
  length (visualize_dfa_path partial_dfa ["a"; "b"]).2 = 2
  ∧ length (visualize_dfa_path partial_dfa ["a"; "b"]).2
    ≠ length ["a"; "b"] + 1.
Proof.
  split; [reflexivity|]. vm_compute. discriminate.
Qed.

(** C4, amended.  When every symbol of the string is consumed, the path has
    [len(string) + 1] states, the start state included. *)
Theorem path_length_full (d : dfa) (s : list string) :
  is_Some (delta_star d (start_state d) s) →
  length (visualize_dfa_path d s).2 = length s + 1.
Proof.
  intros Hfull. apply consumed_full in Hfull.
  rewrite visualize_dfa_path_unfold. cbn [snd length].
  rewrite length_visited_states. lia.
Qed.

Lemma path_length_full_witness :
  is_Some (delta_star demo_dfa (start_state demo_dfa)
             ["1"; "0"; "0"; "0"; "1"; "0"; "1"])
  ∧ length (visualize_dfa_path demo_dfa
              ["1"; "0"; "0"; "0"; "1"; "0"; "1"]).2 = 8.
Proof.
  assert (H : is_Some (delta_star demo_dfa (start_state demo_dfa)
                         ["1"; "0"; "0"; "0"; "1"; "0"; "1"])).
  { exists "q0". reflexivity. }
  split; [exact H|].
  exact (path_length_full demo_dfa _ H).
Defined.

(** C5.  On the empty string the path is the start state alone, and the
    string is accepted exactly when the start state is accepting. *)
Theorem empty_string_path (d : dfa) :
  (visualize_dfa_path d []).2 = [start_state d]
  ∧ ((visualize_dfa_path d []).1 = true ↔ start_state d ∈ accept_states d).
Proof.
  split; [done|].
  cbn. by rewrite bool_decide_eq_true.
Qed.

(** C10.  The path is a run of the DFA: it is not empty, it starts with the
    start state, and each state but the first is the one the transition table
    gives for its predecessor and the symbol at the predecessor's index. *)
Theorem path_is_run (d : dfa) (s : list string) :
  let path := (visualize_dfa_path d s).2 in
  path ≠ []
  ∧ path !! 0 = Some (start_state d)
  ∧ ∀ i, i + 1 < length path →
      ∃ q a q',
        path !! i = Some q
        ∧ s !! i = Some a
        ∧ path !! (i + 1) = Some q'
        ∧ transitions d !! (q, a) = Some q'.
Proof.
  intros path. subst path. rewrite visualize_dfa_path_unfold. cbn [snd].
  split; [done|]. split; [done|].
  intros i Hi. cbn [length] in Hi.
  destruct (visited_states_run d (start_state d) s i) as (q & a & q' & ? & ? & ? & ?);
    [lia|].
  exists q, a, q'. replace (i + 1) with (S i) by lia. done.
Qed.

(** ** The λ-closure table *)

(** *** The weight of a transition dictionary *)

Lemma weight_empty : weight ∅ = 0.
Proof. apply map_fold_empty. Qed.

Lemma weight_insert m k l :
  m !! k = None → weight (<[k := l]> m) = length l + weight m.
Proof.
  intros Hk. unfold weight.
  rewrite (map_fold_insert_L (λ _ next_states total, length next_states + total));
    [done | intros; lia | done].
Qed.

Lemma weight_delete m k l :
  m !! k = Some l → weight m = length l + weight (delete k m).
Proof.
  intros Hk. rewrite <- (insert_delete_id m k l) at 1 by done.
  apply weight_insert, lookup_delete_eq.
Qed.

Lemma weight_mono m1 m2 : m1 ⊆ m2 → weight m1 ≤ weight m2.
Proof.
  revert m2. induction m1 as [|k l m1 Hk IH] using map_ind; intros m2 Hsub.
  - rewrite weight_empty. lia.
  - assert (Hk2 : m2 !! k = Some l).
    { eapply lookup_weaken; [|done]. apply lookup_insert_eq. }
    rewrite (weight_insert _ _ _ Hk), (weight_delete _ _ _ Hk2).
    apply Nat.add_le_mono_l, IH.
    apply map_subseteq_spec. intros k' l' Hk'.
    assert (k ≠ k') by congruence.
    rewrite lookup_delete_ne by done.
    eapply lookup_weaken; [|done]. by rewrite lookup_insert_ne.
Qed.

Section closures_facts.
Variable n : nfa.

(** *** The stack *)

Lemma push_all_reverse stack next_states :
  push_all stack next_states = reverse next_states ++ stack.
Proof.
  unfold push_all. revert stack.
  induction next_states as [|x l IH]; intros stack; cbn [foldl]; [done|].
  by rewrite IH, reverse_cons, <- app_assoc.
Qed.

Lemma length_push_all stack next_states :
  length (push_all stack next_states) = length next_states + length stack.
Proof. by rewrite push_all_reverse, length_app, length_reverse. Qed.

Lemma elem_of_push_all q stack next_states :
  q ∈ push_all stack next_states ↔ q ∈ next_states ∨ q ∈ stack.
Proof. by rewrite push_all_reverse, elem_of_app, elem_of_reverse. Qed.

Lemma elem_of_epsilon_moves q q' :
  q' ∈ epsilon_moves n q ↔ epsilon_step n q q'.
Proof.
  unfold epsilon_moves, epsilon_step.
  destruct (transitions n !! (q, epsilon)) as [l|]; cbn.
  - split; [eauto | by intros (? & [= <-] & ?)].
  - split; [intros H; by apply elem_of_nil in H | by intros (? & ? & ?)].
Qed.

(** *** Termination: the measure drops by one in each iteration *)

Lemma pending_visit current_state visited :
  current_state ∉ visited →
  weight (pending n visited) =
    length (epsilon_moves n current_state)
    + weight (pending n ({[current_state]} ∪ visited)).
Proof.
  intros Hnew.
  assert (Hdel : pending n ({[current_state]} ∪ visited)
                 = delete (current_state, epsilon) (pending n visited)).
  { apply map_eq. intros [q a]. unfold pending.
    destruct (decide ((q, a) = (current_state, epsilon))) as [[= -> ->]|Hne].
    - rewrite lookup_delete_eq. apply map_lookup_filter_None_2.
      right. intros l _ [_ Hn]. cbn in Hn. set_solver.
    - rewrite lookup_delete_ne by done.
      apply option_eq. intros l. rewrite !map_lookup_filter_Some. cbn.
      split; intros (? & ? & ?); (split; [done|]); (split; [done|]).
      + set_solver.
      + assert (Hq : q ≠ current_state) by congruence.
        apply not_elem_of_union. split; [|done].
        by rewrite elem_of_singleton. }
  rewrite Hdel. unfold epsilon_moves.
  destruct (transitions n !! (current_state, epsilon)) as [l|] eqn:Hl; cbn.
  - apply weight_delete. unfold pending.
    by apply map_lookup_filter_Some_2.
  - rewrite delete_id; [done|]. unfold pending.
    apply map_lookup_filter_None_2. by left.
Qed.

Lemma search_body_measure state current_state rest visited table :
  S (search_measure n (search_body n state current_state rest visited table))
  = search_measure n (Search (current_state :: rest) visited table).
Proof.
  unfold search_body, search_measure.
  destruct (decide (current_state ∈ visited)) as [|Hnew]; cbn; [done|].
  rewrite length_push_all, (pending_visit _ _ Hnew). lia.
Qed.

Lemma weight_pending visited :
  weight (pending n visited) ≤ weight (transitions n).
Proof. apply weight_mono, map_filter_subseteq. Qed.

Lemma search_measure_start state table :
  search_measure n (Search [state] ∅ table) ≤ search_bound n.
Proof.
  unfold search_measure, search_bound. cbn.
  apply le_n_S, weight_pending.
Qed.

(** *** Correctness: the invariant of a search *)

Lemma search_inv_start state table :
  search_inv n state table (Search [state] ∅ (<[state := ∅]> table)).
Proof.
  split; cbn.
  - done.
  - intros q Hq. by apply not_elem_of_empty in Hq.
  - intros q ->%list_elem_of_singleton. apply rtc_refl.
  - right. apply list_elem_of_here.
  - intros q q' Hq. by apply not_elem_of_empty in Hq.
Qed.

Lemma search_body_inv state table current_state rest visited closures :
  search_inv n state table (Search (current_state :: rest) visited closures) →
  search_inv n state table
    (search_body n state current_state rest visited closures).
Proof.
  intros [Htable Hvis Hstack Hstart Hclosed]. cbn in *.
  unfold search_body.
  destruct (decide (current_state ∈ visited)) as [Hold|Hnew]; split; cbn.
  - done.
  - done.
  - intros q Hq. apply Hstack. by right.
  - destruct Hstart as [|[->|]%elem_of_cons]; auto.
  - intros q q' Hq Hstep.
    destruct (Hclosed q q' Hq Hstep) as [|[->|]%elem_of_cons]; auto.
  - by rewrite Htable, alter_insert_eq.
  - intros q [->%elem_of_singleton|Hq]%elem_of_union; [|by apply Hvis].
    apply Hstack, list_elem_of_here.
  - intros q [Hq|Hq]%elem_of_push_all; [|apply Hstack; by right].
    eapply rtc_r; [apply Hstack, list_elem_of_here|].
    by apply elem_of_epsilon_moves.
  - destruct Hstart as [|[->|]%elem_of_cons].
    + left. apply elem_of_union. by right.
    + left. apply elem_of_union. left. by apply elem_of_singleton.
    + right. apply elem_of_push_all. by right.
  - intros q q' [->%elem_of_singleton|Hq]%elem_of_union Hstep.
    + right. apply elem_of_push_all. left. by apply elem_of_epsilon_moves.
    + destruct (Hclosed q q' Hq Hstep) as [|[->|]%elem_of_cons].
      * left. apply elem_of_union. by right.
      * left. apply elem_of_union. left. by apply elem_of_singleton.
      * right. apply elem_of_push_all. by right.
Qed.

(** Once the stack is empty the visited set is the set of reachable
    states. *)
Lemma search_inv_done state table st :
  search_inv n state table st →
  s_stack st = [] →
  ∀ q, q ∈ s_visited st ↔ epsilon_reachable n state q.
Proof.
  intros [Htable Hvis Hstack Hstart Hclosed] Hnil q.
  rewrite Hnil in *.
  split; [apply Hvis|].
  revert q. apply (rtc_ind_r (λ q, q ∈ s_visited st)).
  - destruct Hstart as [|Hin]; [done | by apply elem_of_nil in Hin].
  - intros q1 q2 _ Hstep IH.
    destruct (Hclosed q1 q2 IH Hstep) as [|Hin];
      [done | by apply elem_of_nil in Hin].
Qed.

(** With fuel for the measure, the loop runs until the stack is empty. *)
Lemma while_stack_spec state table fuel st :
  search_measure n st ≤ fuel →
  search_inv n state table st →
  ∃ st', while_stack n fuel state st = Some st'
         ∧ s_stack st' = []
         ∧ search_inv n state table st'.
Proof.
  revert st. induction fuel as [|fuel IH]; intros [stk vis cl] Hfuel Hinv;
    destruct stk as [|current_state rest]; cbn [while_stack s_stack].
  - by eexists.
  - unfold search_measure in Hfuel. cbn in Hfuel. lia.
  - by eexists.
  - cbn [s_visited s_epsilon_closures]. apply IH.
    + pose proof (search_body_measure state current_state rest vis cl). lia.
    + by apply search_body_inv.
Qed.

(** More fuel does not change a result. *)
Lemma while_stack_mono state fuel fuel' st st' :
  while_stack n fuel state st = Some st' →
  fuel ≤ fuel' →
  while_stack n fuel' state st = Some st'.
Proof.
  revert fuel' st. induction fuel as [|fuel IH]; intros fuel' [stk vis cl];
    destruct stk as [|current_state rest]; cbn [while_stack s_stack];
    intros Hrun Hle.
  - by destruct fuel'.
  - done.
  - by destruct fuel'.
  - destruct fuel' as [|fuel']; [lia|].
    cbn [while_stack s_stack]. apply IH; [done | lia].
Qed.

(** The search for one state. *)
Lemma search_from_state state table fuel :
  search_bound n ≤ fuel →
  ∃ X, while_stack n fuel state (Search [state] ∅ (<[state := ∅]> table))
         = Some (Search [] X (<[state := X]> table))
       ∧ ∀ q, q ∈ X ↔ epsilon_reachable n state q.
Proof.
  intros Hfuel.
  destruct (while_stack_spec state table fuel
              (Search [state] ∅ (<[state := ∅]> table)))
    as ([stk X cl] & Hrun & Hnil & Hinv).
  - pose proof (search_measure_start state (<[state := ∅]> table)). lia.
  - apply search_inv_start.
  - cbn in Hnil. subst stk. exists X. split.
    + rewrite Hrun. f_equal. f_equal. apply (inv_table _ _ _ _ Hinv).
    + by apply (search_inv_done state table _ Hinv).
Qed.

(** Restarting the search for [state] from a stack that holds the members
    of its closure visits that closure again and nothing else. *)
Lemma search_from_closure state table X fuel :
  (∀ q, q ∈ X ↔ epsilon_reachable n state q) →
  size X + search_bound n ≤ fuel →
  while_stack n fuel state (Search (elements X) ∅ (<[state := ∅]> table))
    = Some (Search [] X (<[state := X]> table)).
Proof.
  intros HX Hfuel.
  destruct (while_stack_spec state table fuel
              (Search (elements X) ∅ (<[state := ∅]> table)))
    as ([stk Y cl] & Hrun & Hnil & Hinv).
  - unfold search_measure, search_bound in *. cbn.
    pose proof (weight_pending ∅).
    change (length (elements X)) with (size X). lia.
  - split; cbn.
    + done.
    + intros q Hq. by apply not_elem_of_empty in Hq.
    + intros q Hq%elem_of_elements. by apply HX.
    + right. apply elem_of_elements, HX, rtc_refl.
    + intros q q' Hq. by apply not_elem_of_empty in Hq.
  - cbn in Hnil. subst stk. rewrite Hrun.
    pose proof (search_inv_done state table _ Hinv eq_refl) as HY.
    cbn in HY.
    assert (Y = X) as ->.
    { apply set_eq. intros q. by rewrite HY, HX. }
    f_equal. f_equal. apply (inv_table _ _ _ _ Hinv).
Qed.

(** *** The loop over the declared states *)

Lemma for_states_spec fuel sts table :
  search_bound n ≤ fuel →
  ∃ m, for_states n fuel sts table = Some m
       ∧ (∀ s, s ∈ sts →
            ∃ X, m !! s = Some X ∧ ∀ q, q ∈ X ↔ epsilon_reachable n s q)
       ∧ (∀ s, s ∉ sts → m !! s = table !! s).
Proof.
  intros Hfuel. revert table.
  induction sts as [|state rest IH]; intros table; cbn [for_states].
  - exists table. split; [done|]. split; [|done].
    intros s Hs. by apply elem_of_nil in Hs.
  - destruct (search_from_state state table fuel Hfuel) as (X & -> & HX).
    cbn [s_epsilon_closures].
    destruct (IH (<[state := X]> table)) as (m & -> & Hin & Hout).
    exists m. split; [done|]. split.
    + intros s Hs. destruct (decide (s ∈ rest)) as [Hrest|Hrest].
      * by apply Hin.
      * apply elem_of_cons in Hs as [->|Hs]; [|done].
        exists X. by rewrite (Hout _ Hrest), lookup_insert_eq.
    + intros s Hs. apply not_elem_of_cons in Hs as [Hne Hrest].
      by rewrite (Hout _ Hrest), lookup_insert_ne.
Qed.

Lemma for_states_mono fuel fuel' sts table m :
  for_states n fuel sts table = Some m →
  fuel ≤ fuel' →
  for_states n fuel' sts table = Some m.
Proof.
  intros Hrun Hle. revert table Hrun.
  induction sts as [|state rest IH]; intros table; cbn [for_states]; [done|].
  destruct (while_stack n fuel state _) as [st|] eqn:Hst; [|done].
  rewrite (while_stack_mono _ _ _ _ _ Hst Hle). apply IH.
Qed.

(** *** The table returned by [calculate_epsilon_closures] *)

Lemma calculate_epsilon_closures_spec :
  ∃ table,
    calculate_epsilon_closures n = Some table
    ∧ (∀ s, s ∈ states n →
         ∃ X, table !! s = Some X ∧ ∀ q, q ∈ X ↔ epsilon_reachable n s q)
    ∧ (∀ s, s ∉ states n → table !! s = None).
Proof.
  destruct (for_states_spec (search_bound n) (states n) ∅)
    as (m & Hrun & Hin & Hout); [done|].
  exists m. split; [done|]. split; [done|].
  intros s Hs. by rewrite (Hout _ Hs).
Qed.

Lemma calculate_epsilon_closures_lookup table s X :
  calculate_epsilon_closures n = Some table →
  table !! s = Some X →
  s ∈ states n ∧ ∀ q, q ∈ X ↔ epsilon_reachable n s q.
Proof.
  intros Hrun Hs.
  destruct calculate_epsilon_closures_spec as (m & Hm & Hin & Hout).
  rewrite Hrun in Hm. simplify_eq.
  destruct (decide (s ∈ states n)) as [Hdecl|Hdecl].
  - split; [done|]. destruct (Hin s Hdecl) as (Y & HY & Hreach).
    by simplify_eq.
  - rewrite (Hout s Hdecl) in Hs. done.
Qed.

End closures_facts.

(** *** Claims about the closure table *)

(** Scenario of the demonstration driver: the closure of q0 is q0, q1, q3 and
    every other state closes to itself. *)
Example demo_e_nfa_closures :
  calculate_epsilon_closures demo_e_nfa =
    Some (list_to_map
            [("q0", {["q0"; "q1"; "q3"]}); ("q1", {["q1"]});
             ("q2", {["q2"]}); ("q3", {["q3"]})]).
Proof. vm_compute. reflexivity. Qed.

(** On a cycle of λ-transitions every state closes to the whole cycle. *)
Example cyclic_nfa_closures :
  calculate_epsilon_closures cyclic_nfa =
    Some (list_to_map
            [("p0", {["p0"; "p1"; "p2"]}); ("p1", {["p0"; "p1"; "p2"]});
             ("p2", {["p0"; "p1"; "p2"]})]).
Proof. vm_compute. reflexivity. Qed.

(** C6.  Every declared state has an entry in the table returned by
    [calculate_epsilon_closures], and is a member of it. *)
Theorem closure_reflexive (n : nfa) (s : string) :
  s ∈ states n →
  ∃ table X,
    calculate_epsilon_closures n = Some table
    ∧ table !! s = Some X
    ∧ s ∈ X.
Proof.
  intros Hs.
  destruct (calculate_epsilon_closures_spec n) as (table & Hrun & Hin & _).
  destruct (Hin s Hs) as (X & HX & Hreach).
  exists table, X. split; [done|]. split; [done|].
  apply Hreach, rtc_refl.
Qed.

Lemma closure_reflexive_witness :
  "q3" ∈ states demo_e_nfa
  ∧ ∃ table X,
      calculate_epsilon_closures demo_e_nfa = Some table
      ∧ table !! "q3" = Some X
      ∧ "q3" ∈ X.
Proof.
  assert (H : "q3" ∈ states demo_e_nfa).
  { cbn. do 3 apply list_elem_of_further. apply list_elem_of_here. }
  split; [exact H|].
  exact (closure_reflexive demo_e_nfa "q3" H).
Defined.

(** C7.  [calculate_epsilon_closures] terminates on every NFA, cyclic
    λ-transitions included: within [search_bound] iterations per search it
    returns a table, and more fuel returns the same table.  The table has an
    entry for exactly the declared states, and the entry of [s] is exactly the
    set of states reachable from [s] by zero or more λ-transitions.  A state
    popped when it is already visited is dropped without being expanded. *)
Theorem closures_terminate_exact (n : nfa) :
  ∃ table,
    calculate_epsilon_closures n = Some table
    ∧ (∀ fuel, search_bound n ≤ fuel →
         calculate_epsilon_closures_fuel n fuel = Some table)
    ∧ (∀ s, s ∈ states n ↔ is_Some (table !! s))
    ∧ (∀ s X, table !! s = Some X →
         ∀ q, q ∈ X ↔ epsilon_reachable n s q)
    ∧ (∀ state current_state rest visited closures,
         current_state ∈ visited →
         search_body n state current_state rest visited closures
         = Search rest visited closures).
Proof.
  destruct (calculate_epsilon_closures_spec n) as (table & Hrun & Hin & Hout).
  exists table. split; [done|]. split; [|split; [|split]].
  - intros fuel Hfuel. by apply (for_states_mono n (search_bound n)).
  - intros s. split.
    + intros Hs. destruct (Hin s Hs) as (X & -> & _). by eexists.
    + intros [X HX]. by apply (calculate_epsilon_closures_lookup n table s X).
  - intros s X HX. by apply (calculate_epsilon_closures_lookup n table s X).
  - intros state current_state rest visited closures Hvis.
    unfold search_body. by rewrite decide_True.
Qed.

(** C8.  The closure is idempotent: for an entry [X] of the table, the union
    of the entries of the members of [X] is [X] again, and so is the set of
    states reachable from members of [X] by λ-transitions.  Each member of
    [X] that is a declared state has an entry, a subset of [X]; the other
    members have none and add nothing to the union.  Restarting the search
    from a stack that holds the members of [X] visits exactly [X]. *)
Theorem closure_idempotent (n : nfa) (table : gmap string (gset string))
    (s : string) (X : gset string) :
  calculate_epsilon_closures n = Some table →
  table !! s = Some X →
  closure_of_set table X = X
  ∧ (∀ x, x ∈ X ↔ ∃ q, q ∈ X ∧ epsilon_reachable n q x)
  ∧ (∀ q, q ∈ X →
       match table !! q with
       | Some Y => q ∈ states n ∧ Y ⊆ X
       | None => q ∉ states n
       end)
  ∧ ∀ fuel, size X + search_bound n ≤ fuel →
      ∃ st, while_stack n fuel s (Search (elements X) ∅ (<[s := ∅]> table))
              = Some st
            ∧ s_stack st = []
            ∧ s_visited st = X.
Proof.
  intros Hrun Hs.
  destruct (calculate_epsilon_closures_lookup n table s X Hrun Hs)
    as [Hdecl HX].
  split; [|split; [|split]].
  - apply set_eq. intros x. unfold closure_of_set.
    rewrite elem_of_union_list. split.
    + intros (Y & HY & Hx).
      apply list_elem_of_fmap in HY as (q & -> & Hq%elem_of_elements).
      destruct (table !! q) as [Y|] eqn:Hq'; cbn in Hx;
        [|by apply not_elem_of_empty in Hx].
      destruct (calculate_epsilon_closures_lookup n table q Y Hrun Hq')
        as [_ HY].
      apply HX. eapply rtc_trans; [by apply HX | by apply HY].
    + intros Hx. exists X. split; [|done].
      apply list_elem_of_fmap. exists s. rewrite Hs. split; [done|].
      apply elem_of_elements, HX, rtc_refl.
  - intros x. split.
    + intros Hx. exists x. split; [done | apply rtc_refl].
    + intros (q & Hq & Hx). apply HX.
      eapply rtc_trans; [by apply HX | done].
  - intros q Hq. destruct (table !! q) as [Y|] eqn:Hq'.
    + destruct (calculate_epsilon_closures_lookup n table q Y Hrun Hq')
        as [Hq_decl HY].
      split; [done|]. intros x Hx.
      apply HX. eapply rtc_trans; [by apply HX | by apply HY].
    + intros Hq_decl.
      destruct (calculate_epsilon_closures_spec n) as (table0 & Hrun0 & Hin & _).
      rewrite Hrun in Hrun0. simplify_eq.
      destruct (Hin q Hq_decl) as (Y & HY & _). congruence.
  - intros fuel Hfuel. eexists. split; [|split].
    + by apply search_from_closure.
    + done.
    + done.
Qed.

Lemma closure_idempotent_witness :
  ∃ table X,
    calculate_epsilon_closures cyclic_nfa = Some table
    ∧ table !! "p1" = Some X
    ∧ closure_of_set table X = X.
Proof.
  eexists _, _.
  split; [exact cyclic_nfa_closures|].
  split; [reflexivity|].
  exact (proj1 (closure_idempotent cyclic_nfa _ "p1" _
                  cyclic_nfa_closures eq_refl)).
Defined.

(** ** The closure table over the store *)

(** *** Running the operations *)

Lemma run_bind_ok {A B : Type} (m : run A) (f : A → run B) h a h' :
  m h = (Ok a, h') → (m ≫= f) h = f a h'.
Proof. intros Hm. unfold mbind, run_bind. by rewrite Hm. Qed.

Lemma dict_getitem_ok d k h entries v :
  h !! d = Some (ODict entries) → entries !! k = Some v →
  dict_getitem d k h = (Ok v, h).
Proof. intros Hd Hk. unfold dict_getitem. by rewrite Hd, Hk. Qed.

Lemma dict_getitem_ref_ok d k h entries l :
  h !! d = Some (ODict entries) → entries !! k = Some (VRef l) →
  (dict_getitem d k ≫= as_ref) h = (Ok l, h).
Proof.
  intros Hd Hk. by rewrite (run_bind_ok _ _ _ _ _ (dict_getitem_ok _ _ _ _ _ Hd Hk)).
Qed.

Lemma dict_get_ref_ok d k h entries l other :
  h !! d = Some (ODict entries) →
  default (VRef other) (entries !! k) = VRef l →
  (dict_get d k (VRef other) ≫= as_ref) h = (Ok l, h).
Proof.
  intros Hd Hk. unfold mbind, run_bind, dict_get. rewrite Hd.
  destruct (entries !! k); cbn in Hk; by rewrite Hk.
Qed.

Lemma dict_setitem_ok d k v h entries :
  h !! d = Some (ODict entries) →
  dict_setitem d k v h = (Ok (), <[d := ODict (<[k := v]> entries)]> h).
Proof. intros Hd. unfold dict_setitem. by rewrite Hd. Qed.

Lemma set_contains_ok s x h members :
  h !! s = Some (OSet members) →
  set_contains s x h = (Ok (bool_decide (x ∈ members)), h).
Proof. intros Hs. unfold set_contains. by rewrite Hs. Qed.

Lemma set_add_ok s x h members :
  h !! s = Some (OSet members) →
  set_add s x h = (Ok (), <[s := OSet ({[x]} ∪ members)]> h).
Proof. intros Hs. unfold set_add. by rewrite Hs. Qed.

Lemma list_nonempty_ok l h items :
  h !! l = Some (OList items) →
  list_nonempty l h = (Ok (bool_decide (items ≠ [])), h).
Proof. intros Hl. unfold list_nonempty. by rewrite Hl. Qed.

Lemma list_pop_ok l h items x :
  h !! l = Some (OList (items ++ [x])) →
  list_pop l h = (Ok x, <[l := OList items]> h).
Proof.
  intros Hl. unfold list_pop. by rewrite Hl, last_snoc, removelast_last.
Qed.

Lemma list_append_ok l x h items :
  h !! l = Some (OList items) →
  list_append l x h = (Ok (), <[l := OList (items ++ [x])]> h).
Proof. intros Hl. unfold list_append. by rewrite Hl. Qed.

Lemma list_next_ok l i h items :
  h !! l = Some (OList items) → list_next l i h = (Ok (items !! i), h).
Proof. intros Hl. unfold list_next. by rewrite Hl. Qed.

Lemma new_ok o (h : store) :
  new o h = (Ok (fresh (dom h)), <[fresh (dom h) := o]> h).
Proof. done. Qed.

(** A new object is placed at a location the store does not use. *)
Lemma new_fresh (h : store) : h !! fresh (dom h) = None.
Proof. apply not_elem_of_dom, is_fresh. Qed.

Lemma insert_fresh_subseteq (h0 h : store) l o :
  h0 ⊆ h → h0 !! l = None → h0 ⊆ <[l := o]> h.
Proof.
  intros Hsub Hl. apply map_subseteq_spec. intros l' o' Hl'.
  assert (l ≠ l') by congruence.
  rewrite lookup_insert_ne by done.
  by apply (lookup_weaken h0).
Qed.

(** The loop of lines 153-154 appends the items of [l] from index [i] on to
    the list [stack]. *)
Lemma append_loop fuel l stack next_states items i h :
  h !! l = Some (OList next_states) →
  h !! stack = Some (OList items) →
  l ≠ stack →
  length next_states - i < fuel →
  for_loop fuel l (λ next_state, list_append stack next_state) i h
  = (Ok (), <[stack := OList (items ++ drop i next_states)]> h).
Proof.
  revert items i h.
  induction fuel as [|fuel IH]; intros items i h Hl Hstack Hne Hfuel; [lia|].
  cbn [for_loop].
  rewrite (run_bind_ok _ _ _ _ _ (list_next_ok _ i _ _ Hl)).
  destruct (next_states !! i) as [x|] eqn:Hi.
  - rewrite (run_bind_ok _ _ _ _ _ (list_append_ok _ x _ _ Hstack)).
    rewrite (IH (items ++ [x]) (S i)).
    + rewrite insert_insert_eq, <- app_assoc. cbn [app].
      by rewrite <- (drop_S _ _ _ Hi).
    + by rewrite lookup_insert_ne.
    + apply lookup_insert_eq.
    + done.
    + pose proof (lookup_lt_Some _ _ _ Hi). lia.
  - apply lookup_ge_None in Hi.
    rewrite drop_ge, app_nil_r by done.
    by rewrite insert_id.
Qed.

Lemma represents_weaken h0 h nfa n :
  h0 ⊆ h → represents h0 nfa n → represents h nfa n.
Proof.
  intros Hsub [entries table ls la lt lacc ? ? ? ? ? ? ? ? ? ? Htr].
  apply (Represents h nfa n entries table ls la lt lacc);
    try done; try by apply (lookup_weaken h0).
  intros q a. specialize (Htr q a).
  destruct (transitions n !! (q, a)); [|done].
  destruct Htr as (l' & ? & ?). exists l'. split; [done|].
  by apply (lookup_weaken h0).
Qed.

Lemma length_epsilon_moves n q :
  length (epsilon_moves n q) < search_bound n.
Proof.
  unfold epsilon_moves, search_bound.
  destruct (transitions n !! (q, epsilon)) as [l|] eqn:Hl; cbn; [|lia].
  rewrite (weight_delete _ _ _ Hl). lia.
Qed.

Section search_store_facts.
Variable n : nfa.
Variables (h0 h1 : store) (r_nfa epsilon_closures closure visited stack : nat).
Variable state : string.
Variable entries : gmap key value.
Variable fuel : nat.

Hypothesis Hrep : represents h0 r_nfa n.
Hypothesis Hsub : h0 ⊆ h1.
Hypothesis Hfuel : search_bound n ≤ fuel.
Hypothesis Hclosure0 : h0 !! closure = None.
Hypothesis Hvisited0 : h0 !! visited = None.
Hypothesis Hstack0 : h0 !! stack = None.
Hypothesis Htable : h1 !! epsilon_closures = Some (ODict entries).
Hypothesis Hentry : entries !! KStr state = Some (VRef closure).
Hypothesis Hcv : closure ≠ visited.
Hypothesis Hcs : closure ≠ stack.
Hypothesis Hvs : visited ≠ stack.
Hypothesis Hec : epsilon_closures ≠ closure.
Hypothesis Hev : epsilon_closures ≠ visited.
Hypothesis Hes : epsilon_closures ≠ stack.

(** An object of the store of the call is none of the three objects the
    search writes to, and is found unchanged in every store of the search. *)
Lemma search_rel_old h st l o :
  search_rel h1 state closure visited stack h st →
  h0 !! l = Some o →
  h !! l = Some o ∧ l ≠ closure ∧ l ≠ visited ∧ l ≠ stack.
Proof.
  intros (_ & _ & _ & Hframe) Hl.
  assert (l ≠ closure ∧ l ≠ visited ∧ l ≠ stack) as (? & ? & ?)
    by (repeat split; congruence).
  pose proof (lookup_weaken _ _ _ _ Hl Hsub) as Hl1.
  split; [|done]. rewrite Hframe; [done | by eexists | done..].
Qed.

(** One iteration of the loop in the store follows [search_body]. *)
Lemma search_body_store_spec h current_state rest seen closures :
  search_rel h1 state closure visited stack h
    (Search (current_state :: rest) seen closures) →
  ∃ h',
    search_body_store fuel r_nfa epsilon_closures state visited stack h
      = (Ok (), h')
    ∧ search_rel h1 state closure visited stack h'
        (search_body n state current_state rest seen closures).
Proof.
  intros Hrel.
  pose proof Hrel as (Hstk & Hvis & (C & HC & Hcl) & Hframe).
  cbn [s_stack s_visited s_epsilon_closures] in *.
  rewrite reverse_cons in Hstk.
  unfold search_body_store, search_body.
  rewrite (run_bind_ok _ _ _ _ _ (list_pop_ok _ _ _ _ Hstk)).
  set (ha := <[stack := OList (reverse rest)]> h).
  assert (Hvis_a : ha !! visited = Some (OSet seen))
    by (unfold ha; by rewrite lookup_insert_ne).
  rewrite (run_bind_ok _ _ _ _ _ (set_contains_ok _ current_state _ _ Hvis_a)).
  destruct (decide (current_state ∈ seen)) as [Hold|Hnew].
  { rewrite bool_decide_eq_true_2 by done.
    exists ha. split; [done|].
    split; [|split; [|split]]; cbn [s_stack s_visited s_epsilon_closures].
    - apply lookup_insert_eq.
    - done.
    - exists C. split; [done|]. unfold ha. by rewrite lookup_insert_ne.
    - intros l Hl ? ? ?. unfold ha. rewrite lookup_insert_ne by done.
      by apply Hframe. }
  rewrite bool_decide_eq_false_2 by done.
  rewrite (run_bind_ok _ _ _ _ _ (set_add_ok _ current_state _ _ Hvis_a)).
  set (hb := <[visited := OSet ({[current_state]} ∪ seen)]> ha).
  assert (Htable_b : hb !! epsilon_closures = Some (ODict entries)).
  { unfold hb, ha. rewrite !lookup_insert_ne by done.
    rewrite Hframe; [done | by eexists | done..]. }
  rewrite (run_bind_ok _ _ _ _ _
             (dict_getitem_ref_ok _ _ _ _ _ Htable_b Hentry)).
  assert (Hcl_b : hb !! closure = Some (OSet C)).
  { unfold hb, ha. by rewrite !lookup_insert_ne. }
  rewrite (run_bind_ok _ _ _ _ _ (set_add_ok _ current_state _ _ Hcl_b)).
  set (hc := <[closure := OSet ({[current_state]} ∪ C)]> hb).
  destruct Hrep as [d_entries d_table ls la lt lacc
                      Hnfa _ _ _ _ _ _ _ Htr_key Htr_dict Htr].
  destruct (search_rel_old h _ _ _ Hrel Hnfa) as (Hnfa_h & ? & ? & ?).
  destruct (search_rel_old h _ _ _ Hrel Htr_dict) as (Htr_h & ? & ? & ?).
  assert (Hnfa_c : hc !! r_nfa = Some (ODict d_entries)).
  { unfold hc, hb, ha. by rewrite !lookup_insert_ne. }
  rewrite (run_bind_ok _ _ _ _ _
             (dict_getitem_ref_ok _ _ _ _ _ Hnfa_c Htr_key)).
  rewrite (run_bind_ok _ _ _ _ _ (new_ok _ _)).
  set (empty := fresh (dom hc)).
  set (hd := <[empty := OList []]> hc).
  assert (Hempty : hc !! empty = None) by apply new_fresh.
  assert (Hfresh : ∀ l, is_Some (hc !! l) → empty ≠ l).
  { intros l [o Hl] <-. congruence. }
  assert (Hstk_c : hc !! stack = Some (OList (reverse rest))).
  { unfold hc, hb. rewrite !lookup_insert_ne by done. apply lookup_insert_eq. }
  assert (Htr_d : hd !! lt = Some (ODict d_table)).
  { unfold hd. rewrite lookup_insert_ne.
    - unfold hc, hb, ha. by rewrite !lookup_insert_ne.
    - apply Hfresh. unfold hc, hb, ha. rewrite !lookup_insert_ne by done.
      by eexists. }
  assert (Hstk_d : hd !! stack = Some (OList (reverse rest))).
  { unfold hd. rewrite lookup_insert_ne; [done|].
    apply Hfresh. by eexists. }
  assert (∃ l, default (VRef empty) (d_table !! KPair current_state epsilon)
               = VRef l
               ∧ hd !! l = Some (OList (epsilon_moves n current_state))
               ∧ l ≠ stack) as (l & Hl_key & Hl & Hl_stack).
  { specialize (Htr current_state epsilon). unfold epsilon_moves.
    destruct (transitions n !! (current_state, epsilon)) as [next|].
    - destruct Htr as (l & -> & Hl0). exists l. split; [done|].
      destruct (search_rel_old h _ _ _ Hrel Hl0) as (Hl_h & ? & ? & ?).
      split; [|done]. unfold hd. rewrite lookup_insert_ne.
      + unfold hc, hb, ha. by rewrite !lookup_insert_ne.
      + apply Hfresh. unfold hc, hb, ha. rewrite !lookup_insert_ne by done.
        by eexists.
    - rewrite Htr. exists empty. split; [done|].
      split; [apply lookup_insert_eq|]. apply Hfresh. by eexists. }
  rewrite (run_bind_ok _ _ _ _ _ (dict_get_ref_ok _ _ _ _ _ _ Htr_d Hl_key)).
  rewrite (append_loop fuel l stack _ _ 0 hd Hl Hstk_d Hl_stack).
  2: { pose proof (length_epsilon_moves n current_state). lia. }
  eexists. split; [done|].
  split; [|split; [|split]]; cbn [s_stack s_visited s_epsilon_closures].
  - rewrite lookup_insert_eq, push_all_reverse, reverse_app,
      reverse_involutive. done.
  - rewrite lookup_insert_ne by done. unfold hd.
    rewrite lookup_insert_ne.
    + unfold hc. rewrite lookup_insert_ne by done. apply lookup_insert_eq.
    + apply Hfresh. unfold hc. rewrite lookup_insert_ne by done.
      unfold hb. rewrite lookup_insert_eq. by eexists.
  - exists ({[current_state]} ∪ C). split.
    + by rewrite lookup_alter_eq, HC.
    + rewrite lookup_insert_ne by done. unfold hd.
      rewrite lookup_insert_ne.
      * apply lookup_insert_eq.
      * apply Hfresh. unfold hc. rewrite lookup_insert_eq. by eexists.
  - intros l' Hl' ? ? ?.
    rewrite lookup_insert_ne by done. unfold hd.
    rewrite lookup_insert_ne.
    + unfold hc, hb, ha. rewrite !lookup_insert_ne by done. by apply Hframe.
    + apply Hfresh. unfold hc, hb, ha. rewrite !lookup_insert_ne by done.
      rewrite Hframe by done. done.
Qed.

(** The loop in the store follows [while_stack]. *)
Lemma while_loop_store_spec budget st st' h :
  while_stack n budget state st = Some st' →
  search_rel h1 state closure visited stack h st →
  ∃ h',
    while_loop budget (list_nonempty stack)
      (search_body_store fuel r_nfa epsilon_closures state visited stack) h
      = (Ok (), h')
    ∧ search_rel h1 state closure visited stack h' st'.
Proof.
  revert st h.
  induction budget as [|budget IH]; intros [stk seen closures] h Hrun Hrel;
    pose proof Hrel as (Hstk & _); cbn [s_stack] in Hstk;
    destruct stk as [|current_state rest];
    cbn [while_stack s_stack s_visited s_epsilon_closures] in Hrun;
    cbn [while_loop];
    rewrite (run_bind_ok _ _ _ _ _ (list_nonempty_ok _ _ _ Hstk)).
  - simplify_eq. rewrite bool_decide_eq_false_2 by (intros Hne; by apply Hne).
    by exists h.
  - done.
  - simplify_eq. rewrite bool_decide_eq_false_2 by (intros Hne; by apply Hne).
    by exists h.
  - rewrite bool_decide_eq_true_2.
    2: { rewrite reverse_cons. intros Hnil. by apply app_nil in Hnil as [_ ?]. }
    destruct (search_body_store_spec h current_state rest seen closures Hrel)
      as (h' & Hbody & Hrel').
    rewrite (run_bind_ok _ _ _ _ _ Hbody).
    by apply (IH (search_body n state current_state rest seen closures)).
Qed.

End search_store_facts.

Section closures_store_facts.
Variable n : nfa.
Variables (h0 : store) (r_nfa epsilon_closures : nat).
Variable fuel : nat.

Hypothesis Hrep : represents h0 r_nfa n.
Hypothesis Hfuel : search_bound n ≤ fuel.

(** The body of the loop over the states follows the search of the model
    and keeps the table in the store in step with the table of the model. *)
Lemma search_store_spec h table state :
  table_inv h0 epsilon_closures h table →
  ∃ h' X,
    search_store fuel r_nfa epsilon_closures state h = (Ok (), h')
    ∧ while_stack n fuel state (Search [state] ∅ (<[state := ∅]> table))
      = Some (Search [] X (<[state := X]> table))
    ∧ table_inv h0 epsilon_closures h' (<[state := X]> table).
Proof.
  intros (Hsub & Hec0 & entries & Hec & Hnopair & Hentries).
  destruct (search_from_state n state table fuel Hfuel) as (X & Hrun & HX).
  unfold search_store.
  rewrite (run_bind_ok _ _ _ _ _ (new_ok _ _)).
  set (closure := fresh (dom h)).
  set (ha := <[closure := OSet ∅]> h).
  assert (Hcl : h !! closure = None) by apply new_fresh.
  assert (Hec_cl : epsilon_closures ≠ closure) by congruence.
  assert (Hec_a : ha !! epsilon_closures = Some (ODict entries)).
  { unfold ha. by rewrite lookup_insert_ne. }
  rewrite (run_bind_ok _ _ _ _ _
             (dict_setitem_ok _ (KStr state) (VRef closure) _ _ Hec_a)).
  set (entries' := <[KStr state := VRef closure]> entries).
  set (hb := <[epsilon_closures := ODict entries']> ha).
  rewrite (run_bind_ok _ _ _ _ _ (new_ok _ _)).
  set (visited := fresh (dom hb)).
  set (hc := <[visited := OSet ∅]> hb).
  assert (Hvis : hb !! visited = None) by apply new_fresh.
  rewrite (run_bind_ok _ _ _ _ _ (new_ok _ _)).
  set (stack := fresh (dom hc)).
  set (h1 := <[stack := OList [state]]> hc).
  assert (Hstk : hc !! stack = None) by apply new_fresh.
  assert (Hcl_b : hb !! closure = Some (OSet ∅)).
  { unfold hb, ha. rewrite lookup_insert_ne by done. apply lookup_insert_eq. }
  assert (Hec_b : hb !! epsilon_closures = Some (ODict entries'))
    by apply lookup_insert_eq.
  assert (Hcv : closure ≠ visited) by congruence.
  assert (Hev : epsilon_closures ≠ visited) by congruence.
  assert (Hvis_c : hc !! visited = Some (OSet ∅)) by apply lookup_insert_eq.
  assert (Hcl_c : hc !! closure = Some (OSet ∅)).
  { unfold hc. by rewrite lookup_insert_ne. }
  assert (Hec_c : hc !! epsilon_closures = Some (ODict entries')).
  { unfold hc. by rewrite lookup_insert_ne. }
  assert (Hcs : closure ≠ stack) by congruence.
  assert (Hvs : visited ≠ stack) by congruence.
  assert (Hes : epsilon_closures ≠ stack) by congruence.
  assert (Hold : ∀ l o, h !! l = Some o →
            l ≠ closure ∧ l ≠ visited ∧ l ≠ stack
            ∧ (l ≠ epsilon_closures → h1 !! l = Some o)).
  { intros l o Hl.
    assert (l ≠ closure) by congruence.
    assert (l ≠ epsilon_closures → hb !! l = Some o) as Hl_b.
    { intros ?. unfold hb, ha. by rewrite !lookup_insert_ne. }
    assert (l ≠ visited).
    { intros ->. destruct (decide (visited = epsilon_closures)); [done|].
      rewrite Hl_b in Hvis; done. }
    assert (l ≠ epsilon_closures → hc !! l = Some o) as Hl_c.
    { intros ?. unfold hc. rewrite lookup_insert_ne by done. by apply Hl_b. }
    assert (l ≠ stack).
    { intros ->. destruct (decide (stack = epsilon_closures)); [done|].
      rewrite Hl_c in Hstk; done. }
    repeat split; try done.
    intros ?. unfold h1. rewrite lookup_insert_ne by done. by apply Hl_c. }
  assert (Hold0 : ∀ l o, h0 !! l = Some o →
            l ≠ closure ∧ l ≠ visited ∧ l ≠ stack ∧ h1 !! l = Some o).
  { intros l o Hl.
    destruct (Hold l o (lookup_weaken _ _ _ _ Hl Hsub)) as (? & ? & ? & Hl1).
    repeat split; try done. apply Hl1. congruence. }
  assert (Hsub1 : h0 ⊆ h1).
  { apply map_subseteq_spec. intros l o Hl. by apply Hold0. }
  assert (Hnone : ∀ l, l = closure ∨ l = visited ∨ l = stack → h0 !! l = None).
  { intros l Hl. destruct (h0 !! l) as [o|] eqn:Hl0; [|done].
    destruct (Hold0 l o Hl0) as (? & ? & ? & _).
    by destruct Hl as [->|[->| ->]]. }
  assert (Hrel1 : search_rel h1 state closure visited stack h1
                    (Search [state] ∅ (<[state := ∅]> table))).
  { split; [|split; [|split]]; cbn [s_stack s_visited s_epsilon_closures].
    - apply lookup_insert_eq.
    - unfold h1. by rewrite lookup_insert_ne.
    - exists ∅. rewrite lookup_insert_eq. split; [done|].
      unfold h1. by rewrite lookup_insert_ne.
    - done. }
  destruct (while_loop_store_spec n h0 h1 r_nfa epsilon_closures closure
              visited stack state entries' fuel)
    with (budget := fuel) (h := h1)
         (st := Search [state] ∅ (<[state := ∅]> table))
         (st' := Search [] X (<[state := X]> table))
    as (h' & Hloop & Hrel'); try done.
  { by apply Hnone; left. }
  { by apply Hnone; right; left. }
  { by apply Hnone; right; right. }
  { unfold h1. by rewrite lookup_insert_ne. }
  { apply lookup_insert_eq. }
  exists h', X. split; [done|]. split; [done|].
  destruct Hrel' as (_ & _ & (C & HC & Hcl') & Hframe).
  cbn [s_epsilon_closures] in HC. rewrite lookup_insert_eq in HC.
  simplify_eq.
  assert (Hkeep : ∀ l o, h !! l = Some o → l ≠ epsilon_closures →
            h' !! l = Some o).
  { intros l o Hl Hne. destruct (Hold l o Hl) as (? & ? & ? & Hl1).
    rewrite Hframe; [by apply Hl1 | | done..].
    rewrite Hl1; [by eexists | done]. }
  split; [|split; [done|]].
  - apply map_subseteq_spec. intros l o Hl.
    apply Hkeep; [by apply (lookup_weaken h0) | congruence].
  - exists entries'. split; [|split].
    + rewrite Hframe; [| |done..].
      * unfold h1. by rewrite lookup_insert_ne.
      * unfold h1. rewrite lookup_insert_ne by done. by eexists.
    + intros a b. unfold entries'. by rewrite lookup_insert_ne.
    + intros s. destruct (decide (s = state)) as [->|Hne].
      * rewrite lookup_insert_eq. exists closure. split; [|done].
        apply lookup_insert_eq.
      * rewrite lookup_insert_ne by done. unfold entries'.
        rewrite lookup_insert_ne by congruence.
        specialize (Hentries s). destruct (table !! s) as [Y|]; [|done].
        destruct Hentries as (l & ? & Hl). exists l. split; [done|].
        apply (Hkeep l _ Hl). congruence.
Qed.

(** The loop over the list of states in the store follows [for_states]. *)
Lemma for_states_store_spec l_states budget i h table :
  h0 !! l_states = Some (OList (states n)) →
  length (states n) - i < budget →
  table_inv h0 epsilon_closures h table →
  ∃ h' table',
    for_loop budget l_states (search_store fuel r_nfa epsilon_closures) i h
      = (Ok (), h')
    ∧ for_states n fuel (drop i (states n)) table = Some table'
    ∧ table_inv h0 epsilon_closures h' table'.
Proof.
  intros Hstates. revert i h table.
  induction budget as [|budget IH]; intros i h table Hbudget Hinv; [lia|].
  cbn [for_loop].
  assert (Hstates_h : h !! l_states = Some (OList (states n))).
  { destruct Hinv as (Hsub & _). by apply (lookup_weaken h0). }
  rewrite (run_bind_ok _ _ _ _ _ (list_next_ok _ i _ _ Hstates_h)).
  destruct (states n !! i) as [state|] eqn:Hi.
  - rewrite (drop_S _ _ _ Hi). cbn [for_states].
    destruct (search_store_spec h table state Hinv)
      as (h1 & X & Hbody & -> & Hinv1).
    rewrite (run_bind_ok _ _ _ _ _ Hbody). cbn [s_epsilon_closures].
    apply IH; [|done].
    pose proof (lookup_lt_Some _ _ _ Hi). lia.
  - apply lookup_ge_None in Hi. rewrite drop_ge by done.
    by exists h, table.
Qed.

End closures_store_facts.

Lemma table_inv_start (h : store) :
  table_inv h (fresh (dom h)) (<[fresh (dom h) := ODict ∅]> h) ∅.
Proof.
  split; [|split].
  - apply insert_fresh_subseteq; [done | apply new_fresh].
  - apply new_fresh.
  - exists ∅. split; [apply lookup_insert_eq|].
    split; [intros a b | intros s]; by rewrite ?lookup_empty.
Qed.

#[local] Instance successors_at_inj : Inj (=) (=) successors_at.
Proof. intros k1 k2 Hk. unfold successors_at in Hk. apply (inj encode_nat). lia. Qed.

#[local] Instance pair_key_inj : Inj (=) (=) pair_key.
Proof. intros [a1 b1] [a2 b2] Hk. unfold pair_key in Hk. by simplify_eq/=. Qed.

(** Every automaton is held by some store. *)
Lemma store_of_represents (n : nfa) : represents (store_of n) 0 n.
Proof.
  assert (Hlists : ∀ k, store_of n !! successors_at k
                        = OList <$> transitions n !! k).
  { intros k. unfold store_of.
    rewrite !lookup_insert_ne by (unfold successors_at; lia).
    by rewrite (lookup_kmap successors_at), lookup_fmap. }
  eapply (Represents (store_of n) 0 n _ _ 1 2 3 4);
    try (unfold store_of; rewrite ?lookup_insert_ne by lia;
         apply lookup_insert_eq);
    try reflexivity.
  intros q a.
  change (KPair q a) with (pair_key (q, a)).
  rewrite (lookup_kmap pair_key), map_lookup_imap.
  destruct (transitions n !! (q, a)) as [next|] eqn:Hk; cbn; [|done].
  exists (successors_at (q, a)). split; [done|].
  by rewrite Hlists, Hk.
Qed.

Lemma demo_store_represents : represents demo_store 0 demo_e_nfa.
Proof.
  eapply (Represents demo_store 0 demo_e_nfa _ _ 1 2 3 4); try reflexivity.
  intros q a. unfold demo_e_nfa, transitions, list_to_map. cbn [foldr fst snd].
  repeat (rewrite (lookup_insert (M := gmap (string * string)));
          case_decide;
          [ simplify_eq; eexists; split; reflexivity |]).
  rewrite lookup_empty.
  repeat (rewrite (lookup_insert_ne (M := gmap key)) by congruence).
  apply lookup_empty.
Qed.

(** C9.  Called on a store that holds an automaton, with fuel for its
    loops, [calculate_epsilon_closures] returns a reference to a dictionary
    that the store of the call did not have.  Every object of that store is
    found unchanged in the store after the call, so the dictionary of the
    automaton still holds its five fields.  The new dictionary is the table
    that the model computes. *)
Theorem calculate_epsilon_closures_no_side_effect (n : nfa) (h : store)
    (r_nfa fuel : nat) :
  represents h r_nfa n →
  store_bound n ≤ fuel →
  ∃ r h' table,
    calculate_epsilon_closures_store fuel r_nfa h = (Ok r, h')
    ∧ h !! r = None
    ∧ h ⊆ h'
    ∧ represents h' r_nfa n
    ∧ calculate_epsilon_closures n = Some table
    ∧ table_at h' r table.
Proof.
  intros Hrep Hfuel. unfold store_bound in Hfuel.
  assert (Hsearch : search_bound n ≤ fuel) by lia.
  assert (Hstates : length (states n) - 0 < fuel).
  { unfold search_bound in Hfuel. lia. }
  unfold calculate_epsilon_closures_store.
  rewrite (run_bind_ok _ _ _ _ _ (new_ok _ _)).
  set (epsilon_closures := fresh (dom h)).
  set (ha := <[epsilon_closures := ODict ∅]> h).
  pose proof (table_inv_start h) as Hinv.
  fold epsilon_closures in Hinv. fold ha in Hinv.
  pose proof Hinv as (Hsub & Hnew & _).
  pose proof Hrep as [entries table ls la lt lacc
                        Hnfa Hstates_key Hstates_list _ _ _ _ _ _ _ _].
  rewrite (run_bind_ok _ _ _ _ _
             (dict_getitem_ref_ok _ _ _ _ _
                (lookup_weaken _ _ _ _ Hnfa Hsub) Hstates_key)).
  destruct (for_states_store_spec n h r_nfa epsilon_closures fuel Hrep Hsearch
              ls fuel 0 ha ∅ Hstates_list Hstates Hinv)
    as (h' & table' & Hloop & Hpure & Hsub' & _ & Htable).
  rewrite (run_bind_ok _ _ _ _ _ Hloop).
  exists epsilon_closures, h', table'.
  split; [done|]. split; [done|]. split; [done|].
  split; [by apply (represents_weaken h)|]. split; [|done].
  destruct (calculate_epsilon_closures_spec n) as (table0 & Hrun & _).
  rewrite Hrun.
  pose proof (for_states_mono n _ fuel _ _ _ Hrun Hsearch) as Hrun'.
  rewrite drop_0 in Hpure. congruence.
Qed.

Lemma calculate_epsilon_closures_no_side_effect_witness :
  represents demo_store 0 demo_e_nfa
  ∧ store_bound demo_e_nfa ≤ 10
  ∧ ∃ r h' table,
      calculate_epsilon_closures_store 10 0 demo_store = (Ok r, h')
      ∧ demo_store !! r = None
      ∧ demo_store ⊆ h'
      ∧ represents h' 0 demo_e_nfa
      ∧ calculate_epsilon_closures demo_e_nfa = Some table
      ∧ table_at h' r table.
Proof.
  assert (Hfuel : store_bound demo_e_nfa ≤ 10) by (vm_compute; lia).
  split; [exact demo_store_represents|]. split; [exact Hfuel|].
  exact (calculate_epsilon_closures_no_side_effect demo_e_nfa demo_store 0 10
           demo_store_represents Hfuel).
Defined.

(** ** What the function writes, on any store

    The lemmas of this section hold of every store, whether or not it holds
    an automaton, and of every way the function ends. *)

Section maintains_rules.
Context {A B : Type} (I : store → Prop).

Lemma maintains_ret (a : A) (Q : A → Prop) : Q a → maintains I (mret a) Q.
Proof. intros Ha h Hh. split; [done|]. by intros ? [= <-]. Qed.

Lemma maintains_raise (Q : A → Prop) : maintains I raise Q.
Proof. by intros h Hh. Qed.

Lemma maintains_out_of_fuel (Q : A → Prop) : maintains I out_of_fuel Q.
Proof. by intros h Hh. Qed.

Lemma maintains_bind (m : run A) (f : A → run B) (Q : A → Prop)
    (R : B → Prop) :
  maintains I m Q →
  (∀ a, Q a → maintains I (f a) R) →
  maintains I (m ≫= f) R.
Proof.
  intros Hm Hf h Hh. destruct (Hm h Hh) as [Hinv Hret].
  unfold mbind, run_bind. destruct (m h) as [[a| |] h1]; cbn in *.
  - by apply (Hf a); [apply Hret|].
  - done.
  - done.
Qed.

Lemma maintains_weaken (m : run A) (Q Q' : A → Prop) :
  maintains I m Q → (∀ a, Q a → Q' a) → maintains I m Q'.
Proof.
  intros Hm HQ h Hh. destruct (Hm h Hh) as [Hinv Hret].
  split; [done|]. intros a Ha. by apply HQ, Hret.
Qed.

End maintains_rules.

Section keeps_rules.
Variables (h0 : store) (table : nat).

Lemma keeps_insert h l o :
  keeps h0 table h →
  h0 !! l = None →
  (l = table → ∀ entries k l', o = ODict entries →
     entries !! k = Some (VRef l') → h0 !! l' = None) →
  keeps h0 table (<[l := o]> h).
Proof.
  intros [Hsub Hpriv] Hl Ho. split.
  - by apply insert_fresh_subseteq.
  - intros entries k l' Htab Hk.
    destruct (decide (l = table)) as [->|Hne].
    + rewrite lookup_insert_eq in Htab. injection Htab as ->.
      by apply (Ho eq_refl entries k l').
    + rewrite lookup_insert_ne in Htab by done. by eapply Hpriv.
Qed.

Lemma maintains_new o :
  (∀ entries k l, o = ODict entries → entries !! k = Some (VRef l) →
     h0 !! l = None) →
  maintains (keeps h0 table) (new o) (λ l, h0 !! l = None).
Proof.
  intros Ho h Hh. rewrite new_ok. cbn [fst snd].
  assert (Hnew : h0 !! fresh (dom h) = None).
  { destruct (h0 !! fresh (dom h)) as [o'|] eqn:Hl; [|done].
    pose proof (lookup_weaken _ _ _ _ Hl (proj1 Hh)) as Hl'.
    by rewrite new_fresh in Hl'. }
  split.
  - apply keeps_insert; [done..|]. intros _. apply Ho.
  - by intros ? [= <-].
Qed.

Lemma maintains_dict_getitem_ref d k :
  maintains (keeps h0 table) (dict_getitem d k ≫= as_ref)
    (λ l, d = table → h0 !! l = None).
Proof.
  intros h Hh. unfold mbind, run_bind, dict_getitem.
  destruct (h !! d) as [[| |entries]|] eqn:Hd; try done.
  destruct (entries !! k) as [[s|l]|] eqn:Hk; try done. cbn.
  split; [done|]. intros ? [= <-] ->. by eapply (proj2 Hh).
Qed.

Lemma maintains_dict_get_ref d k other :
  maintains (keeps h0 table) (dict_get d k other ≫= as_ref) (λ _, True).
Proof.
  intros h Hh. unfold mbind, run_bind, dict_get.
  destruct (h !! d) as [[| |entries]|]; try done.
  by destruct (entries !! k) as [[s|l]|]; destruct other.
Qed.

Lemma maintains_dict_setitem d k l :
  h0 !! d = None → h0 !! l = None →
  maintains (keeps h0 table) (dict_setitem d k (VRef l)) (λ _, True).
Proof.
  intros Hd Hl h Hh. unfold dict_setitem.
  destruct (h !! d) as [[| |entries]|] eqn:Hd'; try done. cbn.
  split; [|done]. apply keeps_insert; [done..|].
  intros -> entries' k' l' [= <-] Hk'.
  destruct (decide (k = k')) as [->|Hne].
  - rewrite lookup_insert_eq in Hk'. by simplify_eq.
  - rewrite lookup_insert_ne in Hk' by done. by eapply (proj2 Hh).
Qed.

(** An operation that replaces the object at [l] by a list or a set. *)
Lemma keeps_insert_flat h l o :
  keeps h0 table h →
  h0 !! l = None →
  (∀ entries, o ≠ ODict entries) →
  keeps h0 table (<[l := o]> h).
Proof.
  intros Hh Hl Ho. apply keeps_insert; [done..|].
  intros _ entries k l' ->. by destruct (Ho entries).
Qed.

Lemma maintains_set_contains s x :
  maintains (keeps h0 table) (set_contains s x) (λ _, True).
Proof.
  intros h Hh. unfold set_contains. by destruct (h !! s) as [[| |]|].
Qed.

Lemma maintains_set_add s x :
  h0 !! s = None → maintains (keeps h0 table) (set_add s x) (λ _, True).
Proof.
  intros Hs h Hh. unfold set_add.
  destruct (h !! s) as [[|members|]|]; try done. cbn.
  split; [|done]. by apply keeps_insert_flat.
Qed.

Lemma maintains_list_nonempty l :
  maintains (keeps h0 table) (list_nonempty l) (λ _, True).
Proof.
  intros h Hh. unfold list_nonempty. by destruct (h !! l) as [[| |]|].
Qed.

Lemma maintains_list_next l i :
  maintains (keeps h0 table) (list_next l i) (λ _, True).
Proof.
  intros h Hh. unfold list_next. by destruct (h !! l) as [[| |]|].
Qed.

Lemma maintains_list_pop l :
  h0 !! l = None → maintains (keeps h0 table) (list_pop l) (λ _, True).
Proof.
  intros Hl h Hh. unfold list_pop.
  destruct (h !! l) as [[items| |]|]; try done.
  destruct (last items); [|done]. cbn.
  split; [|done]. by apply keeps_insert_flat.
Qed.

Lemma maintains_list_append l x :
  h0 !! l = None → maintains (keeps h0 table) (list_append l x) (λ _, True).
Proof.
  intros Hl h Hh. unfold list_append.
  destruct (h !! l) as [[items| |]|]; try done. cbn.
  split; [|done]. by apply keeps_insert_flat.
Qed.

Lemma maintains_for_loop fuel l body i :
  (∀ x, maintains (keeps h0 table) (body x) (λ _, True)) →
  maintains (keeps h0 table) (for_loop fuel l body i) (λ _, True).
Proof.
  intros Hbody. revert i.
  induction fuel as [|fuel IH]; intros i; cbn [for_loop].
  - apply maintains_out_of_fuel.
  - eapply maintains_bind; [apply maintains_list_next|].
    intros [x|] _.
    + eapply maintains_bind; [apply Hbody|]. intros _ _. apply IH.
    + by apply maintains_ret.
Qed.

Lemma maintains_while_loop fuel cond body :
  maintains (keeps h0 table) cond (λ _, True) →
  maintains (keeps h0 table) body (λ _, True) →
  maintains (keeps h0 table) (while_loop fuel cond body) (λ _, True).
Proof.
  intros Hcond Hbody.
  induction fuel as [|fuel IH]; cbn [while_loop].
  - eapply maintains_bind; [apply Hcond|]. intros [|] _.
    + apply maintains_out_of_fuel.
    + by apply maintains_ret.
  - eapply maintains_bind; [apply Hcond|]. intros [|] _.
    + eapply maintains_bind; [apply Hbody|]. intros _ _. apply IH.
    + by apply maintains_ret.
Qed.

End keeps_rules.

Section store_frame.
Variables (h0 : store) (epsilon_closures : nat).
Variables (fuel r_nfa : nat).

Lemma maintains_search_body_store state visited stack :
  h0 !! visited = None →
  h0 !! stack = None →
  maintains (keeps h0 epsilon_closures)
    (search_body_store fuel r_nfa epsilon_closures state visited stack)
    (λ _, True).
Proof.
  intros Hvisited Hstack. unfold search_body_store.
  eapply maintains_bind; [by apply maintains_list_pop|].
  intros current_state _.
  eapply maintains_bind; [apply maintains_set_contains|].
  intros [|] _; [by apply maintains_ret|].
  eapply maintains_bind; [by apply maintains_set_add|]. intros _ _.
  eapply maintains_bind; [apply maintains_dict_getitem_ref|].
  intros closure Hclosure.
  eapply maintains_bind; [apply maintains_set_add; by apply Hclosure|].
  intros _ _.
  eapply maintains_bind; [apply maintains_dict_getitem_ref|].
  intros transitions _.
  eapply maintains_bind; [by apply maintains_new|]. intros empty _.
  eapply maintains_bind; [apply maintains_dict_get_ref|].
  intros next_states _.
  apply maintains_for_loop. intros next_state.
  by apply maintains_list_append.
Qed.

Lemma maintains_search_store state :
  h0 !! epsilon_closures = None →
  maintains (keeps h0 epsilon_closures)
    (search_store fuel r_nfa epsilon_closures state) (λ _, True).
Proof.
  intros Htable. unfold search_store.
  eapply maintains_bind; [by apply maintains_new|]. intros closure Hclosure.
  eapply maintains_bind; [by apply maintains_dict_setitem|]. intros _ _.
  eapply maintains_bind; [by apply maintains_new|]. intros visited Hvisited.
  eapply maintains_bind; [by apply maintains_new|]. intros stack Hstack.
  apply maintains_while_loop.
  - apply maintains_list_nonempty.
  - by apply maintains_search_body_store.
Qed.

End store_frame.

(** Whatever the store holds and however the call ends, by returning, by an
    exception or by running out of fuel, every object of the store of the
    call is unchanged, and a returned reference is new. *)
Lemma calculate_epsilon_closures_store_frame (fuel r_nfa : nat) (h : store) :
  h ⊆ (calculate_epsilon_closures_store fuel r_nfa h).2
  ∧ ∀ r, (calculate_epsilon_closures_store fuel r_nfa h).1 = Ok r →
         h !! r = None.
Proof.
  unfold calculate_epsilon_closures_store.
  rewrite (run_bind_ok _ _ _ _ _ (new_ok _ _)).
  set (epsilon_closures := fresh (dom h)).
  assert (Hnew : h !! epsilon_closures = None) by apply new_fresh.
  assert (Hkeeps : keeps h epsilon_closures (<[epsilon_closures := ODict ∅]> h)).
  { split; [by apply insert_fresh_subseteq|].
    intros entries k l. rewrite lookup_insert_eq. by intros [= <-]. }
  assert (Hrest : maintains (keeps h epsilon_closures)
            (states ← dict_getitem r_nfa (KStr "states") ≫= as_ref;
             for_loop fuel states (search_store fuel r_nfa epsilon_closures) 0 ;;
             mret epsilon_closures)
            (λ r, h !! r = None)).
  { eapply maintains_bind; [apply maintains_dict_getitem_ref|].
    intros states _.
    eapply maintains_bind.
    - apply maintains_for_loop. intros state.
      by apply maintains_search_store.
    - intros _ _. by apply maintains_ret. }
  destruct (Hrest _ Hkeeps) as [[Hsub _] Hret]. by split.
Qed.

(** * Further properties *)

(** ** The path simulation *)

Lemma path_lookup (d : dfa) (q0 : string) (s : list string) (i : nat)
    (q : string) :
  (q0 :: visited_states d q0 s) !! i = Some q
  ↔ i ≤ length s ∧ delta_star d q0 (take i s) = Some q.
Proof.
  revert q0 i. induction s as [|a s IH]; intros q0 i.
  - destruct i as [|i]; cbn.
    + split; [by intros [= ->] | by intros [_ [= ->]]].
    + split; [done | lia].
  - destruct i as [|i]; cbn [lookup list_lookup take delta_star length].
    + split; [intros [= ->]; split; [lia | done] | by intros [_ [= ->]]].
    + cbn [visited_states].
      destruct (transitions d !! (q0, a)) as [q1|].
      * rewrite IH. split; intros [? ?]; (split; [lia | done]).
      * split; [done | by intros [_ ?]].
Qed.

(** X1.  The path lists the states after each prefix of the input: its
    entry at index [i] is the state reached by the first [i] symbols, and it
    has an entry at [i] exactly when those symbols can be read. *)
Theorem path_lists_prefix_states (d : dfa) (s : list string) (i : nat)
    (q : string) :
  (visualize_dfa_path d s).2 !! i = Some q
  ↔ i ≤ length s ∧ delta_star d (start_state d) (take i s) = Some q.
Proof.
  rewrite visualize_dfa_path_unfold. cbn [snd]. apply path_lookup.
Qed.

Lemma run_app (d : dfa) (q0 q : string) (s1 s2 : list string) :
  delta_star d q0 s1 = Some q →
  consumed d q0 (s1 ++ s2) = length s1 + consumed d q s2
  ∧ visited_states d q0 (s1 ++ s2)
    = visited_states d q0 s1 ++ visited_states d q s2
  ∧ halt_state d q0 (s1 ++ s2) = halt_state d q s2.
Proof.
  revert q0. induction s1 as [|a s1 IH]; intros q0; cbn [delta_star app].
  - by intros [= ->].
  - destruct (transitions d !! (q0, a)) as [q1|] eqn:Hq; [|done].
    intros Hrun. destruct (IH q1 Hrun) as (Hc & Hv & Hh).
    rewrite (halt_state_step _ _ _ _ _ Hq).
    cbn [consumed visited_states length]. rewrite Hq, Hc, Hv. done.
Qed.

Lemma run_stuck_app (d : dfa) (q0 : string) (s1 s2 : list string) :
  delta_star d q0 s1 = None →
  consumed d q0 (s1 ++ s2) = consumed d q0 s1
  ∧ visited_states d q0 (s1 ++ s2) = visited_states d q0 s1
  ∧ halt_state d q0 (s1 ++ s2) = halt_state d q0 s1.
Proof.
  revert q0. induction s1 as [|a s1 IH]; intros q0; cbn [delta_star app].
  - done.
  - destruct (transitions d !! (q0, a)) as [q1|] eqn:Hq.
    + intros Hrun. destruct (IH q1 Hrun) as (Hc & Hv & Hh).
      rewrite !(halt_state_step _ _ _ _ _ Hq).
      cbn [consumed visited_states]. rewrite Hq, Hc, Hv. done.
    + intros _. rewrite !(halt_state_stuck _ _ _ _ Hq).
      cbn [consumed visited_states]. by rewrite Hq.
Qed.

(** X2.  Runs compose: when the first part of the input leads to the state
    [q], the run on the whole input is the run on the first part followed by
    the run of the rest from [q], and the whole input is accepted exactly
    when the rest is accepted from [q]. *)
Theorem path_of_concatenation (d : dfa) (s1 s2 : list string) (q : string) :
  delta_star d (start_state d) s1 = Some q →
  (visualize_dfa_path d (s1 ++ s2)).2
  = (visualize_dfa_path d s1).2
    ++ tail (visualize_dfa_path (with_start d q) s2).2
  ∧ (visualize_dfa_path d (s1 ++ s2)).1
    = (visualize_dfa_path (with_start d q) s2).1.
Proof.
  intros Hrun. destruct (run_app d _ q s1 s2 Hrun) as (Hc & Hv & Hh).
  rewrite !visualize_dfa_path_unfold. cbn [fst snd tail start_state].
  change (visited_states (with_start d q)) with (visited_states d).
  change (consumed (with_start d q)) with (consumed d).
  change (halt_state (with_start d q)) with (halt_state d).
  change (accept_states (with_start d q)) with (accept_states d).
  rewrite Hc, Hv, Hh, length_app. split; [done|].
  assert (Hfull : bool_decide (length s1 + consumed d q s2
                               = length s1 + length s2)
                  = bool_decide (consumed d q s2 = length s2))
    by (apply bool_decide_ext; lia).
  by rewrite Hfull.
Qed.

Lemma path_of_concatenation_witness :
  delta_star demo_dfa (start_state demo_dfa) ["1"; "0"] = Some "q2"
  ∧ (visualize_dfa_path demo_dfa (["1"; "0"] ++ ["0"; "0"])).2
    = ["q0"; "q1"; "q2"] ++ ["q1"; "q2"]
  ∧ (visualize_dfa_path demo_dfa (["1"; "0"] ++ ["0"; "0"])).1 = true.
Proof.
  split; [reflexivity|].
  destruct (path_of_concatenation demo_dfa ["1"; "0"] ["0"; "0"] "q2" eq_refl)
    as [Hpath Hacc].
  split; [rewrite Hpath | rewrite Hacc]; reflexivity.
Defined.

(** X3.  A longer input extends the path: the path of an input is a prefix
    of the path of every extension of it.  Once a symbol has found no
    transition the run cannot recover: every extension gives the same path
    and is rejected too. *)
Theorem path_of_extension (d : dfa) (s1 s2 : list string) :
  (visualize_dfa_path d s1).2 `prefix_of` (visualize_dfa_path d (s1 ++ s2)).2
  ∧ (delta_star d (start_state d) s1 = None →
     visualize_dfa_path d (s1 ++ s2) = visualize_dfa_path d s1
     ∧ (visualize_dfa_path d (s1 ++ s2)).1 = false).
Proof.
  rewrite !visualize_dfa_path_unfold. cbn [fst snd].
  destruct (delta_star d (start_state d) s1) as [q|] eqn:Hrun.
  - destruct (run_app d _ q s1 s2 Hrun) as (_ & Hv & _).
    split; [|done]. rewrite Hv.
    by exists (visited_states d q s2).
  - destruct (run_stuck_app d _ s1 s2 Hrun) as (Hc & Hv & Hh).
    rewrite Hc, Hv, Hh. split; [done|]. intros _.
    assert (Hlt : consumed d (start_state d) s1 ≠ length s1).
    { intros Hfull%consumed_full. rewrite Hrun in Hfull.
      by destruct Hfull. }
    pose proof (consumed_le d (start_state d) s1).
    rewrite length_app.
    rewrite (bool_decide_eq_false_2
               (consumed d (start_state d) s1 = length s1 + length s2)) by lia.
    rewrite (bool_decide_eq_false_2
               (consumed d (start_state d) s1 = length s1)) by done.
    done.
Qed.

Lemma visited_states_targets (d : dfa) (q0 q : string) (s : list string) :
  q ∈ visited_states d q0 s →
  ∃ p a, transitions d !! (p, a) = Some q.
Proof.
  revert q0. induction s as [|a s IH]; intros q0; cbn [visited_states].
  - intros Hq. by apply elem_of_nil in Hq.
  - destruct (transitions d !! (q0, a)) as [q1|] eqn:Hq1.
    + intros [->|Hq]%elem_of_cons; [by exists q0, a | by apply (IH q1)].
    + intros Hq. by apply elem_of_nil in Hq.
Qed.

(** X4.  The path stays among the declared states when the start state is
    declared and every transition leads to a declared state. *)
Theorem path_states_declared (d : dfa) (s : list string) :
  start_state d ∈ states d →
  (∀ q a q', transitions d !! (q, a) = Some q' → q' ∈ states d) →
  ∀ q, q ∈ (visualize_dfa_path d s).2 → q ∈ states d.
Proof.
  intros Hstart Hclosed q. rewrite visualize_dfa_path_unfold. cbn [snd].
  intros [->|Hq]%elem_of_cons; [done|].
  destruct (visited_states_targets d _ q s Hq) as (p & a & Hpa).
  by apply (Hclosed p a).
Qed.

Lemma demo_dfa_transitions (q a : string) :
  q ∈ states demo_dfa → a ∈ alphabet demo_dfa →
  ∃ q', transitions demo_dfa !! (q, a) = Some q' ∧ q' ∈ states demo_dfa.
Proof.
  cbn [states alphabet demo_dfa]. rewrite !elem_of_cons, !elem_of_nil.
  intros [->|[->|[->|[]]]] [->|[->|[]]];
    eexists; (split; [reflexivity|]);
    rewrite !elem_of_cons; auto.
Qed.

Lemma demo_dfa_closed (q a q' : string) :
  transitions demo_dfa !! (q, a) = Some q' → q' ∈ states demo_dfa.
Proof.
  unfold demo_dfa, transitions, list_to_map. cbn [foldr fst snd states].
  repeat (rewrite (lookup_insert (M := gmap (string * string)));
          case_decide;
          [intros [= <-]; rewrite !elem_of_cons; auto |]).
  by rewrite lookup_empty.
Qed.

Lemma path_states_declared_witness :
  start_state demo_dfa ∈ states demo_dfa
  ∧ ∀ q, q ∈ (visualize_dfa_path demo_dfa ["1"; "0"; "2"; "0"]).2 →
         q ∈ states demo_dfa.
Proof.
  assert (Hstart : start_state demo_dfa ∈ states demo_dfa)
    by apply list_elem_of_here.
  split; [exact Hstart|].
  exact (path_states_declared demo_dfa ["1"; "0"; "2"; "0"] Hstart
           demo_dfa_closed).
Defined.

Lemma delta_star_complete (d : dfa) (q0 : string) (s : list string) :
  (∀ q a, q ∈ states d → a ∈ alphabet d →
          ∃ q', transitions d !! (q, a) = Some q' ∧ q' ∈ states d) →
  q0 ∈ states d →
  (∀ a, a ∈ s → a ∈ alphabet d) →
  ∃ q, delta_star d q0 s = Some q ∧ q ∈ states d.
Proof.
  intros Hcomplete. revert q0.
  induction s as [|a s IH]; intros q0 Hq0 Hs; cbn [delta_star].
  - by exists q0.
  - destruct (Hcomplete q0 a Hq0) as (q1 & -> & Hq1).
    { apply Hs, list_elem_of_here. }
    apply IH; [done|]. intros b Hb. by apply Hs, list_elem_of_further.
Qed.

(** X5.  A complete DFA never halts early: when the start state is declared,
    every declared state has a transition to a declared state on every
    symbol of the alphabet, and the input is over the alphabet, the path has
    [len(s) + 1] states, ends in a declared state, and the input is accepted
    exactly when that state is accepting. *)
Theorem complete_dfa_reads_all (d : dfa) (s : list string) :
  start_state d ∈ states d →
  (∀ q a, q ∈ states d → a ∈ alphabet d →
          ∃ q', transitions d !! (q, a) = Some q' ∧ q' ∈ states d) →
  (∀ a, a ∈ s → a ∈ alphabet d) →
  length (visualize_dfa_path d s).2 = length s + 1
  ∧ ∃ q, last (visualize_dfa_path d s).2 = Some q
         ∧ q ∈ states d
         ∧ ((visualize_dfa_path d s).1 = true ↔ q ∈ accept_states d).
Proof.
  intros Hstart Hcomplete Hs.
  destruct (delta_star_complete d _ s Hcomplete Hstart Hs) as (q & Hq & Hdecl).
  assert (Hfull : consumed d (start_state d) s = length s).
  { apply consumed_full. by eexists. }
  pose proof (delta_star_halt_state _ _ _ _ Hq) as Hh.
  assert (Hlast : last (start_state d :: visited_states d (start_state d) s)
                  = Some q).
  { unfold halt_state in Hh. rewrite last_cons.
    destruct (last (visited_states d (start_state d) s)); by simplify_eq/=. }
  rewrite visualize_dfa_path_unfold. cbn [fst snd length].
  rewrite length_visited_states, Hfull, Hh. split; [lia|].
  exists q. split; [done|]. split; [done|].
  rewrite (bool_decide_eq_true_2 (length s = length s)) by done.
  cbn [andb]. by rewrite bool_decide_eq_true.
Qed.

Lemma complete_dfa_reads_all_witness :
  start_state demo_dfa ∈ states demo_dfa
  ∧ (∀ a, a ∈ ["0"; "0"; "1"; "0"; "1"; "1"; "1"] → a ∈ alphabet demo_dfa)
  ∧ length (visualize_dfa_path demo_dfa
              ["0"; "0"; "1"; "0"; "1"; "1"; "1"]).2 = 7 + 1.
Proof.
  assert (Hstart : start_state demo_dfa ∈ states demo_dfa)
    by apply list_elem_of_here.
  assert (Hs : ∀ a, a ∈ ["0"; "0"; "1"; "0"; "1"; "1"; "1"] →
                    a ∈ alphabet demo_dfa).
  { intros a. cbn [alphabet demo_dfa]. rewrite !elem_of_cons, !elem_of_nil.
    intros Ha. destruct_or!; auto; done. }
  split; [exact Hstart|]. split; [exact Hs|].
  exact (proj1 (complete_dfa_reads_all demo_dfa _ Hstart
                  demo_dfa_transitions Hs)).
Defined.

(** ** The closure table *)

Lemma epsilon_reachable_stuck (n : nfa) (s q : string) :
  epsilon_moves n s = [] → epsilon_reachable n s q → q = s.
Proof.
  intros Hnone Hreach. apply rtc_inv in Hreach as [->|(q1 & Hstep & _)]; [done|].
  apply elem_of_epsilon_moves in Hstep. rewrite Hnone in Hstep.
  by apply elem_of_nil in Hstep.
Qed.

(** X6.  A declared state without λ-successors, because the transition
    dictionary has no λ-entry for it or has an empty one, closes to itself
    alone. *)
Theorem closure_without_epsilon_moves (n : nfa)
    (table : gmap string (gset string)) (s : string) :
  calculate_epsilon_closures n = Some table →
  s ∈ states n →
  epsilon_moves n s = [] →
  table !! s = Some {[s]}.
Proof.
  intros Hrun Hs Hnone.
  destruct (calculate_epsilon_closures_spec n) as (table0 & Hrun0 & Hin & _).
  rewrite Hrun in Hrun0. simplify_eq.
  destruct (Hin s Hs) as (X & -> & HX). f_equal.
  apply set_eq. intros q. rewrite HX, elem_of_singleton. split.
  - by apply epsilon_reachable_stuck.
  - intros ->. apply rtc_refl.
Qed.

Lemma closure_without_epsilon_moves_witness :
  "q3" ∈ states demo_e_nfa
  ∧ epsilon_moves demo_e_nfa "q3" = []
  ∧ ∃ table, calculate_epsilon_closures demo_e_nfa = Some table
             ∧ table !! "q3" = Some {["q3"]}.
Proof.
  assert (Hs : "q3" ∈ states demo_e_nfa).
  { cbn. do 3 apply list_elem_of_further. apply list_elem_of_here. }
  split; [exact Hs|]. split; [reflexivity|].
  eexists. split; [exact demo_e_nfa_closures|].
  exact (closure_without_epsilon_moves demo_e_nfa _ "q3"
           demo_e_nfa_closures Hs eq_refl).
Defined.

Lemma epsilon_reachable_ext (n1 n2 : nfa) (s q : string) :
  (∀ q q', q' ∈ epsilon_moves n1 q ↔ q' ∈ epsilon_moves n2 q) →
  epsilon_reachable n1 s q → epsilon_reachable n2 s q.
Proof.
  intros Hmoves. apply rtc_subrel. intros p p' Hstep.
  by apply elem_of_epsilon_moves, Hmoves, elem_of_epsilon_moves.
Qed.

(** X7.  The table depends on the automaton only through the set of its
    declared states and the sets of λ-successors of each state: the order
    and repetitions in the list of states and in the lists of successors, the
    transitions on other symbols, the alphabet, the start state and the
    accepting states have no influence on it. *)
Theorem closures_depend_on_epsilon_only (n1 n2 : nfa) :
  (∀ s, s ∈ states n1 ↔ s ∈ states n2) →
  (∀ q q', q' ∈ epsilon_moves n1 q ↔ q' ∈ epsilon_moves n2 q) →
  calculate_epsilon_closures n1 = calculate_epsilon_closures n2.
Proof.
  intros Hstates Hmoves.
  destruct (calculate_epsilon_closures_spec n1) as (t1 & -> & Hin1 & Hout1).
  destruct (calculate_epsilon_closures_spec n2) as (t2 & -> & Hin2 & Hout2).
  f_equal. apply map_eq. intros s.
  destruct (decide (s ∈ states n1)) as [Hs|Hs].
  - destruct (Hin1 s Hs) as (X1 & -> & HX1).
    destruct (Hin2 s (proj1 (Hstates s) Hs)) as (X2 & -> & HX2).
    f_equal. apply set_eq. intros q. rewrite HX1, HX2.
    split; apply epsilon_reachable_ext; [done|].
    intros p p'. by rewrite Hmoves.
  - rewrite (Hout1 s Hs). symmetry. apply Hout2.
    intros Hs2. by apply Hs, Hstates.
Qed.

Lemma demo_e_nfa_variant_moves (q q' : string) :
  q' ∈ epsilon_moves demo_e_nfa q ↔ q' ∈ epsilon_moves demo_e_nfa_variant q.
Proof.
  destruct (decide (q = "q0")) as [->|Hq0].
  { replace (epsilon_moves demo_e_nfa "q0") with ["q1"; "q3"] by reflexivity.
    replace (epsilon_moves demo_e_nfa_variant "q0") with ["q3"; "q1"; "q3"]
      by reflexivity.
    rewrite !elem_of_cons, !elem_of_nil. tauto. }
  destruct (decide (q = "q1")) as [->|Hq1]; [done|].
  unfold epsilon_moves, demo_e_nfa, demo_e_nfa_variant, transitions,
    list_to_map, epsilon.
  cbn [foldr fst snd].
  rewrite !(lookup_insert_ne (M := gmap (string * string))) by congruence.
  by rewrite !lookup_empty.
Qed.

Lemma closures_depend_on_epsilon_only_witness :
  calculate_epsilon_closures demo_e_nfa
  = calculate_epsilon_closures demo_e_nfa_variant.
Proof.
  apply closures_depend_on_epsilon_only.
  - intros s. cbn [states demo_e_nfa demo_e_nfa_variant].
    rewrite !elem_of_cons, !elem_of_nil. tauto.
  - exact demo_e_nfa_variant_moves.
Defined.

(** X8.  Two declared states that lie in each other's closure, as the states
    of a cycle of λ-transitions do, have the same closure. *)
Theorem closures_on_a_cycle (n : nfa) (table : gmap string (gset string))
    (s q : string) (X Y : gset string) :
  calculate_epsilon_closures n = Some table →
  table !! s = Some X →
  table !! q = Some Y →
  q ∈ X → s ∈ Y →
  X = Y.
Proof.
  intros Hrun Hs Hq HqX HsY.
  destruct (calculate_epsilon_closures_lookup n table s X Hrun Hs) as [_ HX].
  destruct (calculate_epsilon_closures_lookup n table q Y Hrun Hq) as [_ HY].
  apply set_eq. intros x. rewrite HX, HY. split; intros Hx.
  - eapply rtc_trans; [by apply HY | done].
  - eapply rtc_trans; [by apply HX | done].
Qed.

Lemma closures_on_a_cycle_witness :
  ∃ table X Y,
    calculate_epsilon_closures cyclic_nfa = Some table
    ∧ table !! "p0" = Some X ∧ table !! "p2" = Some Y
    ∧ "p2" ∈ X ∧ "p0" ∈ Y ∧ X = Y.
Proof.
  eexists _, {["p0"; "p1"; "p2"]}, {["p0"; "p1"; "p2"]}.
  assert (H1 : "p2" ∈ ({["p0"; "p1"; "p2"]} : gset string)).
  { rewrite !elem_of_union, !elem_of_singleton. auto. }
  assert (H2 : "p0" ∈ ({["p0"; "p1"; "p2"]} : gset string)).
  { rewrite !elem_of_union, !elem_of_singleton. auto. }
  split; [exact cyclic_nfa_closures|].
  split; [reflexivity|]. split; [reflexivity|].
  split; [exact H1|]. split; [exact H2|].
  exact (closures_on_a_cycle cyclic_nfa _ "p0" "p2" _ _
           cyclic_nfa_closures eq_refl eq_refl H1 H2).
Defined.

(** ** The drawings *)

Lemma edge_label_not_lambda (symbol : string) : edge_label symbol ≠ epsilon.
Proof.
  unfold edge_label. destruct (decide (symbol ≠ epsilon)); [done|].
  unfold epsilon. discriminate.
Qed.

Lemma elem_of_state_nodes (c : call) (f : string → list (string * string))
    (sts : list string) :
  c ∈ (λ state, Node state (f state)) <$> sts
  ↔ ∃ state, c = Node state (f state) ∧ state ∈ sts.
Proof. apply list_elem_of_fmap. Qed.

Lemma elem_of_dfa_edges (c : call) (f : string → string → list (string * string))
    (m : gmap (string * string) string) :
  c ∈ (λ '((state, symbol), next_state), Edge state next_state (f state symbol))
        <$> map_to_list m
  ↔ ∃ state symbol next_state,
      c = Edge state next_state (f state symbol)
      ∧ m !! (state, symbol) = Some next_state.
Proof.
  rewrite list_elem_of_fmap. split.
  - intros ([[state symbol] next_state] & -> & Hin%elem_of_map_to_list).
    by exists state, symbol, next_state.
  - intros (state & symbol & next_state & -> & Hin).
    exists ((state, symbol), next_state). split; [done|].
    by apply elem_of_map_to_list.
Qed.

(** X9.  The drawing of a DFA has one edge call for each entry of the
    transition dictionary and no other edge: an edge from [tail] to [head] is
    drawn exactly when some symbol leads from [tail] to [head], and it is
    labelled with that symbol, or with ε when the symbol is λ; no edge is
    labelled λ.  The drawing has one node call for each entry of the list of
    states, followed by the edges and one more node call for the start
    state. *)
Theorem dfa_drawing_calls (d : dfa) :
  (∀ tail head attrs,
     Edge tail head attrs ∈ visualize_dfa d
     ↔ ∃ symbol, transitions d !! (tail, symbol) = Some head
                 ∧ attrs = [("label", edge_label symbol)])
  ∧ (∀ tail head attrs,
       Edge tail head attrs ∈ visualize_dfa d → ("label", epsilon) ∉ attrs)
  ∧ (∀ name attrs,
       Node name attrs ∈ visualize_dfa d
       ↔ (name ∈ states d
          ∧ attrs = [("shape", state_shape (accept_states d) name)])
         ∨ Node name attrs = start_node (start_state d))
  ∧ length (visualize_dfa d) = length (states d) + size (transitions d) + 1.
Proof.
  assert (Hedges : ∀ tail head attrs,
     Edge tail head attrs ∈ visualize_dfa d
     ↔ ∃ symbol, transitions d !! (tail, symbol) = Some head
                 ∧ attrs = [("label", edge_label symbol)]).
  { intros tail head attrs. unfold visualize_dfa.
    rewrite !elem_of_app, elem_of_state_nodes,
      (elem_of_dfa_edges _ (λ _ symbol, [("label", edge_label symbol)])),
      list_elem_of_singleton.
    split.
    - intros [(state & [=] & _)|[(state & symbol & next & [= -> -> ->] & Hin)|[=]]].
      by exists symbol.
    - intros (symbol & Hin & ->). right. left. by exists tail, symbol, head. }
  split; [exact Hedges|]. split; [|split].
  - intros tail head attrs (symbol & _ & ->)%Hedges.
    intros [= Hl]%list_elem_of_singleton.
    by apply (edge_label_not_lambda symbol).
  - intros name attrs. unfold visualize_dfa.
    rewrite !elem_of_app, elem_of_state_nodes,
      (elem_of_dfa_edges _ (λ _ symbol, [("label", edge_label symbol)])),
      list_elem_of_singleton.
    split.
    + intros [(state & [= -> ->] & Hin)|[(state & symbol & next & [=] & _)|Hstart]];
        auto.
    + intros [[Hin ->]|Hstart]; [|auto]. left. by exists name.
  - unfold visualize_dfa.
    rewrite !length_app, !length_fmap, length_map_to_list. cbn. lia.
Qed.

Lemma elem_of_nfa_edges (c : call)
    (m : gmap (string * string) (list string)) :
  c ∈ mjoin ((λ '((state, symbol), next_states),
               (λ next_state,
                  Edge state next_state [("label", edge_label symbol)])
                 <$> next_states)
              <$> map_to_list m)
  ↔ ∃ state symbol next_states next_state,
      c = Edge state next_state [("label", edge_label symbol)]
      ∧ m !! (state, symbol) = Some next_states
      ∧ next_state ∈ next_states.
Proof.
  rewrite list_elem_of_join. split.
  - intros (l & Hc & Hl). apply list_elem_of_fmap in Hl
      as ([[state symbol] next_states] & -> & Hin%elem_of_map_to_list).
    apply list_elem_of_fmap in Hc as (next_state & -> & Hnext).
    by exists state, symbol, next_states, next_state.
  - intros (state & symbol & next_states & next_state & -> & Hin & Hnext).
    exists ((λ next_state,
               Edge state next_state [("label", edge_label symbol)])
              <$> next_states).
    split.
    + apply list_elem_of_fmap. by exists next_state.
    + apply list_elem_of_fmap. exists ((state, symbol), next_states).
      split; [done|]. by apply elem_of_map_to_list.
Qed.

Lemma length_nfa_edges (m : gmap (string * string) (list string)) :
  length (mjoin ((λ '((state, symbol), next_states),
                   (λ next_state,
                      Edge state next_state [("label", edge_label symbol)])
                     <$> next_states)
                  <$> map_to_list m))
  = weight m.
Proof.
  unfold weight. rewrite map_fold_foldr.
  induction (map_to_list m) as [|[[state symbol] next_states] l IH];
    [done|].
  csimpl. rewrite length_app, length_fmap. f_equal. exact IH.
Qed.

(** X10.  The drawing of an NFA has one edge call for each member of each
    list of next states and no other edge: an edge from [tail] to [head] is
    drawn exactly when [head] is listed among the next states of [tail] on
    some symbol, so an entry with an empty list draws nothing.  The number of
    edge calls is the number of listed successors.  [visualize_e_nfa] makes
    the same calls as [visualize_nfa]. *)
Theorem nfa_drawing_calls (n : nfa) :
  (∀ tail head attrs,
     Edge tail head attrs ∈ visualize_nfa n
     ↔ ∃ symbol next_states,
         transitions n !! (tail, symbol) = Some next_states
         ∧ head ∈ next_states
         ∧ attrs = [("label", edge_label symbol)])
  ∧ length (visualize_nfa n)
    = length (states n) + weight (transitions n) + 1
  ∧ visualize_e_nfa n = visualize_nfa n.
Proof.
  split; [|split; [|done]].
  - intros tail head attrs. unfold visualize_nfa.
    rewrite !elem_of_app, elem_of_state_nodes, elem_of_nfa_edges,
      list_elem_of_singleton.
    split.
    + intros [(state & [=] & _)
             |[(state & symbol & nexts & next & [= -> -> ->] & Hin & Hnext)
              |[=]]].
      by exists symbol, nexts.
    + intros (symbol & nexts & Hin & Hnext & ->). right. left.
      by exists tail, symbol, nexts, head.
  - unfold visualize_nfa.
    rewrite !length_app, length_fmap, length_nfa_edges. cbn. lia.
Qed.

Lemma delta_star_app (d : dfa) (q0 : string) (s1 s2 : list string) :
  delta_star d q0 (s1 ++ s2)
  = delta_star d q0 s1 ≫= λ q, delta_star d q s2.
Proof.
  revert q0. induction s1 as [|a s1 IH]; intros q0; cbn [app delta_star].
  - done.
  - destruct (transitions d !! (q0, a)) as [q1|]; [apply IH | done].
Qed.

(** A pair of a state and a symbol that has a transition occurs in
    [zip(path, s)] exactly when that transition is taken by the run. *)
Lemma zip_path_taken (d : dfa) (s : list string) (q a q' : string) :
  transitions d !! (q, a) = Some q' →
  (q, a) ∈ zip (visualize_dfa_path d s).2 s
  ↔ taken (visualize_dfa_path d s).2 s q a q'.
Proof.
  intros Hqa. rewrite visualize_dfa_path_unfold. cbn [snd]. split.
  - intros (i & Hi)%list_elem_of_lookup.
    apply lookup_zip_Some in Hi as [Hq Ha]. exists i.
    split; [done|]. split; [done|].
    apply path_lookup in Hq as [_ Hq].
    pose proof (lookup_lt_Some _ _ _ Ha).
    apply path_lookup. split; [lia|].
    replace (i + 1) with (S i) by lia.
    rewrite (take_S_r _ _ _ Ha), delta_star_app, Hq. cbn.
    by rewrite Hqa.
  - intros (i & Hq & Ha & _). apply list_elem_of_lookup. exists i.
    by apply lookup_zip_Some.
Qed.

(** X11.  In the drawing of a run, the edges in the colour of the verdict
    (green when the input is accepted, red when it is not) are exactly the
    transitions taken by the run; every other transition of the table is
    drawn black.  A symbol that found no transition colours nothing. *)
Theorem path_drawing_edges (d : dfa) (s : list string)
    (tail head : string) (attrs : list (string * string)) :
  let accepted := (visualize_dfa_path d s).1 in
  let path := (visualize_dfa_path d s).2 in
  let accepted_color := if accepted then "green" else "red" in
  Edge tail head attrs ∈ visualize_dfa_path_graph d s
  ↔ ∃ symbol,
      transitions d !! (tail, symbol) = Some head
      ∧ ((taken path s tail symbol head
          ∧ attrs = [("label", edge_label symbol); ("color", accepted_color)])
         ∨ (¬ taken path s tail symbol head
            ∧ attrs = [("label", edge_label symbol); ("color", "black")])).
Proof.
  intros accepted path accepted_color.
  assert (Hzip : ∀ symbol, transitions d !! (tail, symbol) = Some head →
            (tail, symbol) ∈ zip path s ↔ taken path s tail symbol head).
  { intros symbol. apply zip_path_taken. }
  unfold visualize_dfa_path_graph.
  fold accepted path accepted_color in Hzip |- *.
  destruct (visualize_dfa_path d s) as [acc p].
  cbn [fst snd] in accepted, path. subst accepted path.
  fold accepted_color.
  rewrite !elem_of_app, !list_elem_of_singleton, list_elem_of_fmap,
    (elem_of_dfa_edges _
       (λ state symbol,
          [("label", edge_label symbol);
           ("color", if decide ((state, symbol) ∈ zip p s)
                     then accepted_color else "black")])).
  split.
  - intros [[=]|[[=]|[(state & Hc & _)
                     |(state & symbol & next & [= -> -> ->] & Hin)]]].
    + by destruct (decide (Some state = last p)).
    + exists symbol. split; [done|].
      destruct (decide ((state, symbol) ∈ zip p s)) as [Hz|Hz].
      * left. split; [by apply Hzip | done].
      * right. split; [|done]. intros Ht. by apply Hz, Hzip.
  - intros (symbol & Hin & [[Ht ->]|[Hnt ->]]); do 3 right;
      exists tail, symbol, head; (split; [|done]).
    + rewrite decide_True; [done|]. by apply Hzip.
    + rewrite decide_False; [done|]. intros Hz. by apply Hnt, Hzip.
Qed.

Lemma last_path (d : dfa) (s : list string) :
  last (visualize_dfa_path d s).2 = Some (halt_state d (start_state d) s).
Proof.
  rewrite visualize_dfa_path_unfold. cbn [snd]. unfold halt_state.
  rewrite last_cons. by destruct (last (visited_states d (start_state d) s)).
Qed.

(** X12.  In the drawing of a run, the only filled nodes are the start
    state, in light blue, and the last state of the path, in the colour of
    the verdict; the last state is filled whenever it is a declared state.
    A node filled green is always a double circle. *)
Theorem path_drawing_fill (d : dfa) (s : list string) :
  let accepted := (visualize_dfa_path d s).1 in
  let path := (visualize_dfa_path d s).2 in
  let accepted_color := if accepted then "green" else "red" in
  (∀ name attrs c,
     Node name attrs ∈ visualize_dfa_path_graph d s →
     ("fillcolor", c) ∈ attrs →
     (name = start_state d ∧ c = "lightblue")
     ∨ (last path = Some name ∧ name ∈ states d ∧ c = accepted_color))
  ∧ (∀ q, last path = Some q → q ∈ states d →
       Node q [("shape", state_shape (accept_states d) q);
               ("style", "filled"); ("fillcolor", accepted_color)]
       ∈ visualize_dfa_path_graph d s)
  ∧ (∀ q, accepted = true → last path = Some q →
       state_shape (accept_states d) q = "doublecircle").
Proof.
  intros accepted path accepted_color.
  assert (Hshape : ∀ q, accepted = true → last path = Some q →
            state_shape (accept_states d) q = "doublecircle").
  { intros q Hacc Hq. unfold path in Hq. rewrite last_path in Hq.
    injection Hq as <-.
    unfold accepted in Hacc. rewrite visualize_dfa_path_unfold in Hacc.
    cbn [fst] in Hacc. apply andb_true_iff in Hacc as [_ Hacc].
    apply bool_decide_eq_true in Hacc.
    unfold state_shape. by rewrite decide_True. }
  split; [|split; [|exact Hshape]]; clear Hshape;
    unfold visualize_dfa_path_graph;
    fold accepted path accepted_color;
    destruct (visualize_dfa_path d s) as [acc p];
    cbn [fst snd] in accepted, path; subst accepted path;
    fold accepted_color.
  - intros name attrs c.
    rewrite !elem_of_app, !list_elem_of_singleton, list_elem_of_fmap,
      (elem_of_dfa_edges _
         (λ state symbol,
            [("label", edge_label symbol);
             ("color", if decide ((state, symbol) ∈ zip p s)
                       then accepted_color else "black")])).
    intros [[= -> ->]|[[= -> ->]|[(state & Hc & Hin)
                                 |(state & symbol & next & [=] & _)]]] Hfill.
    + rewrite !elem_of_cons, elem_of_nil in Hfill.
      by destruct Hfill as [[=]|[[=]|[[=]|[[=]|[]]]]].
    + rewrite !elem_of_cons, elem_of_nil in Hfill.
      destruct Hfill as [[=]|[[=]|[[= ->]|[]]]]. by left.
    + destruct (decide (Some state = last p)) as [Hlast|Hlast];
        injection Hc as -> ->;
        rewrite !elem_of_cons, elem_of_nil in Hfill.
      * destruct Hfill as [[=]|[[=]|[[= ->]|[]]]]. by right.
      * by destruct Hfill as [[=]|[]].
  - intros q Hq Hin.
    rewrite !elem_of_app, list_elem_of_fmap. right. right. left.
    exists q. split; [|done]. by rewrite decide_True.
Qed.

(** X13.  [visualize_dfa] and [visualize_nfa] name the start state in their
    last call, with the shape of a single circle.  When the start state is
    declared and accepting, an earlier call has named it with the shape of a
    double circle. *)
Theorem start_state_drawn_last :
  (∀ d : dfa,
     last (visualize_dfa d) = Some (start_node (start_state d))
     ∧ (start_state d ∈ states d → start_state d ∈ accept_states d →
        ∃ i, i + 1 < length (visualize_dfa d)
             ∧ visualize_dfa d !! i
               = Some (Node (start_state d) [("shape", "doublecircle")])))
  ∧ (∀ n : nfa,
       last (visualize_nfa n) = Some (start_node (start_state n))
       ∧ (start_state n ∈ states n → start_state n ∈ accept_states n →
          ∃ i, i + 1 < length (visualize_nfa n)
               ∧ visualize_nfa n !! i
                 = Some (Node (start_state n) [("shape", "doublecircle")]))).
Proof.
  assert (Hnodes : ∀ (acc sts : list string) (start : string) (rest : list call),
            start ∈ sts → start ∈ acc →
            ∃ i, i + 1 < length
                           (((λ state, Node state [("shape", state_shape acc state)])
                               <$> sts) ++ rest ++ [start_node start])
                 ∧ (((λ state, Node state [("shape", state_shape acc state)])
                       <$> sts) ++ rest ++ [start_node start]) !! i
                   = Some (Node start [("shape", "doublecircle")])).
  { intros acc sts start rest (i & Hi)%list_elem_of_lookup Hacc.
    pose proof (lookup_lt_Some _ _ _ Hi) as Hlt.
    exists i. split.
    - rewrite !length_app, length_fmap. cbn. lia.
    - rewrite lookup_app_l by (rewrite length_fmap; lia).
      rewrite list_lookup_fmap, Hi. cbn.
      unfold state_shape. by rewrite decide_True. }
  split.
  - intros d. unfold visualize_dfa. split.
    + by rewrite !app_assoc, last_snoc.
    + apply Hnodes.
  - intros n. unfold visualize_nfa. split.
    + by rewrite !app_assoc, last_snoc.
    + apply Hnodes.
Qed.

(** ** The closure table over the store *)

Lemma calculate_epsilon_closures_store_spec (n : nfa) (h : store)
    (r_nfa fuel : nat) :
  represents h r_nfa n →
  store_bound n ≤ fuel →
  ∃ r h' table,
    calculate_epsilon_closures_store fuel r_nfa h = (Ok r, h')
    ∧ h !! r = None
    ∧ h ⊆ h'
    ∧ calculate_epsilon_closures n = Some table
    ∧ table_at h' r table.
Proof.
  intros Hrep Hfuel. unfold store_bound in Hfuel.
  assert (Hsearch : search_bound n ≤ fuel) by lia.
  assert (Hstates : length (states n) - 0 < fuel).
  { unfold search_bound in Hfuel. lia. }
  unfold calculate_epsilon_closures_store.
  rewrite (run_bind_ok _ _ _ _ _ (new_ok _ _)).
  pose proof (table_inv_start h) as Hinv.
  pose proof Hinv as (Hsub & Hnew & _).
  pose proof Hrep as [entries table ls la lt lacc
                        Hnfa Hstates_key Hstates_list _ _ _ _ _ _ _ _].
  rewrite (run_bind_ok _ _ _ _ _
             (dict_getitem_ref_ok _ _ _ _ _
                (lookup_weaken _ _ _ _ Hnfa Hsub) Hstates_key)).
  destruct (for_states_store_spec n h r_nfa _ fuel Hrep Hsearch
              ls fuel 0 _ ∅ Hstates_list Hstates Hinv)
    as (h' & table' & Hloop & Hpure & Hsub' & _ & Htable).
  rewrite (run_bind_ok _ _ _ _ _ Hloop).
  exists (fresh (dom h)), h', table'.
  split; [done|]. split; [done|]. split; [done|]. split; [|done].
  destruct (calculate_epsilon_closures_spec n) as (table0 & Hrun & _).
  rewrite Hrun.
  pose proof (for_states_mono n _ fuel _ _ _ Hrun Hsearch) as Hrun'.
  rewrite drop_0 in Hpure. congruence.
Qed.

(** X14.  The driver's assignment
    [e_nfa['epsilon_closures'] = calculate_epsilon_closures(e_nfa)] adds the
    table to the dictionary of the automaton under a sixth key and changes no
    other object: the dictionary still holds the automaton, so the functions
    that read it, [calculate_epsilon_closures] among them, find it as
    before. *)
Theorem attach_keeps_automaton (n : nfa) (h : store) (r_nfa fuel : nat) :
  represents h r_nfa n →
  store_bound n ≤ fuel →
  ∃ h' r entries table,
    attach_epsilon_closures fuel r_nfa h = (Ok (), h')
    ∧ h' !! r_nfa = Some (ODict entries)
    ∧ entries !! KStr "epsilon_closures" = Some (VRef r)
    ∧ table_at h' r table
    ∧ calculate_epsilon_closures n = Some table
    ∧ represents h' r_nfa n
    ∧ (∀ l o, l ≠ r_nfa → h !! l = Some o → h' !! l = Some o).
Proof.
  intros Hrep Hfuel.
  destruct (calculate_epsilon_closures_store_spec n h r_nfa fuel Hrep Hfuel)
    as (r & h1 & table & Hrun & Hnew & Hsub & Hpure & entries_r & Hr & Hnopair
        & Hentries).
  pose proof (represents_weaken _ _ _ _ Hsub Hrep) as
    [entries d_table ls la lt lacc
       Hnfa Hls_key Hls Hla_key Hla Hstart Hlacc_key Hlacc Hlt_key Hlt Htr].
  unfold attach_epsilon_closures.
  rewrite (run_bind_ok _ _ _ _ _ Hrun).
  rewrite (dict_setitem_ok _ _ _ _ _ Hnfa).
  set (entries' := <[KStr "epsilon_closures" := VRef r]> entries).
  set (h' := <[r_nfa := ODict entries']> h1).
  assert (Hother : ∀ l o, l ≠ r_nfa → h1 !! l = Some o → h' !! l = Some o).
  { intros l o Hne Hl. unfold h'. by rewrite lookup_insert_ne. }
  assert (Hr_nfa : r ≠ r_nfa).
  { intros ->. destruct Hrep as [? ? ? ? ? ? Hnfa0 _ _ _ _ _ _ _ _ _ _].
    congruence. }
  exists h', r, entries', table.
  split; [done|]. split; [apply lookup_insert_eq|].
  split; [apply lookup_insert_eq|]. split; [|split; [done|split]].
  - exists entries_r. split; [by apply Hother|]. split; [done|].
    intros s. specialize (Hentries s). destruct (table !! s) as [X|]; [|done].
    destruct Hentries as (l & ? & Hl). exists l. split; [done|].
    apply Hother; [congruence | done].
  - assert (Hkeys : ∀ k v, k ≠ KStr "epsilon_closures" →
              entries !! k = Some v → entries' !! k = Some v).
    { intros k v Hk Hv. unfold entries'. by rewrite lookup_insert_ne. }
    assert (Hlists : ∀ l items, h1 !! l = Some (OList items) →
              h' !! l = Some (OList items)).
    { intros l items Hl. apply Hother; [congruence | done]. }
    apply (Represents h' r_nfa n entries'
             (if decide (lt = r_nfa) then entries' else d_table)
             ls la lt lacc).
    + apply lookup_insert_eq.
    + by apply Hkeys.
    + by apply Hlists.
    + by apply Hkeys.
    + by apply Hlists.
    + by apply Hkeys.
    + by apply Hkeys.
    + by apply Hlists.
    + by apply Hkeys.
    + destruct (decide (lt = r_nfa)) as [->|Hne].
      * apply lookup_insert_eq.
      * by apply Hother.
    + intros q a. specialize (Htr q a).
      assert (Hkey : (if decide (lt = r_nfa) then entries' else d_table)
                     !! KPair q a = d_table !! KPair q a).
      { destruct (decide (lt = r_nfa)) as [->|Hne]; [|done].
        unfold entries'. rewrite lookup_insert_ne by done. congruence. }
      rewrite Hkey.
      destruct (transitions n !! (q, a)) as [next|]; [|done].
      destruct Htr as (l & ? & Hl). exists l. split; [done|].
      apply Hother; [congruence | done].
  - intros l o Hne Hl. apply Hother; [done|]. by apply (lookup_weaken h).
Qed.

Lemma attach_keeps_automaton_witness :
  represents demo_store 0 demo_e_nfa
  ∧ store_bound demo_e_nfa ≤ 10
  ∧ ∃ h', attach_epsilon_closures 10 0 demo_store = (Ok (), h')
          ∧ represents h' 0 demo_e_nfa.
Proof.
  assert (Hfuel : store_bound demo_e_nfa ≤ 10) by (vm_compute; lia).
  split; [exact demo_store_represents|]. split; [exact Hfuel|].
  destruct (attach_keeps_automaton demo_e_nfa demo_store 0 10
              demo_store_represents Hfuel)
    as (h' & r & entries & table & Hrun & _ & _ & _ & _ & Hrep & _).
  exists h'. split; [exact Hrun | exact Hrep].
Defined.

